(** * msgbid: the round scheduler of the sealed-bid message auction

    A shallow embedding of [src/msgbid-worker/src/scheduler.js]
    (class [SchedulerDurableObject]) and the properties of its settlement
    engine, bid intake, token generation and request routing.

    Conventions of the embedding:
    - JavaScript numbers are embedded on their integer values ([Z]) together
      with [NaN]; fractional bids and rounding are outside the model.
    - The durable storage is a finite map from key strings to values; the
      single alarm slot is an [option Z] (epoch milliseconds).
    - Every handler runs atomically (the runtime delivers no other event
      while a storage call or a [blockConcurrencyWhile] callback is pending);
      a handler is a computation in a state and exception monad over the
      object's fields and its storage.
    - Clock readings, random bytes and request identities are inputs. *)

From Stdlib Require Import ZArith Lia Bool Ascii String List Sorted.
From Stdlib Require Import Strings.Byte.
From stdpp Require Import base option list gmap strings pretty.

Local Open Scope string_scope.
Local Open Scope Z_scope.
Local Open Scope list_scope.

(** ** Token generation (scheduler.js, [generateToken]) *)

Module Token.

(** The alphabet of [btoa]. *)
Definition alphabet : string :=
  "ABCDEFGHIJKLMNOPQRSTUVWXYZabcdefghijklmnopqrstuvwxyz0123456789+/".

Definition b64_char (n : N) : ascii :=
  match String.get (N.to_nat n) alphabet with
  | Some c => c
  | None => "="%char
  end.

Definition sextet0 (a : N) : N := N.shiftr a 2.
Definition sextet1 (a b : N) : N :=
  N.lor (N.shiftl (N.land a 3) 4) (N.shiftr b 4).
Definition sextet2 (b c : N) : N :=
  N.lor (N.shiftl (N.land b 15) 2) (N.shiftr c 6).
Definition sextet3 (c : N) : N := N.land c 63.

(** [btoa(String.fromCharCode(...bytes))]: standard base64 with padding. *)
Fixpoint btoa (bs : list byte) : string :=
  match bs with
  | [] => EmptyString
  | [a] =>
      let a := Byte.to_N a in
      String (b64_char (sextet0 a))
        (String (b64_char (sextet1 a 0)) "==")
  | [a; b] =>
      let a := Byte.to_N a in
      let b := Byte.to_N b in
      String (b64_char (sextet0 a))
        (String (b64_char (sextet1 a b))
           (String (b64_char (sextet2 b 0)) "="))
  | a :: b :: c :: rest =>
      let a := Byte.to_N a in
      let b := Byte.to_N b in
      let c := Byte.to_N c in
      String (b64_char (sextet0 a))
        (String (b64_char (sextet1 a b))
           (String (b64_char (sextet2 b c))
              (String (b64_char (sextet3 c)) (btoa rest))))
  end.

Definition is_plus_or_slash (c : ascii) : bool :=
  (Ascii.eqb c "+" || Ascii.eqb c "/")%bool.

(** [.replace(/[+/]/g, '')] *)
Fixpoint strip (s : string) : string :=
  match s with
  | EmptyString => EmptyString
  | String c r => if is_plus_or_slash c then strip r else String c (strip r)
  end.

(** [.slice(0, n)] *)
Fixpoint slice0 (n : nat) (s : string) : string :=
  match n, s with
  | O, _ => EmptyString
  | S _, EmptyString => EmptyString
  | S n', String c r => String c (slice0 n' r)
  end.

(** Number of characters of [s] that the regular expression removes. *)
Fixpoint count_stripped (s : string) : nat :=
  match s with
  | EmptyString => O
  | String c r => ((if is_plus_or_slash c then 1 else 0) + count_stripped r)%nat
  end.

Fixpoint occurs (c : ascii) (s : string) : bool :=
  match s with
  | EmptyString => false
  | String d r => (Ascii.eqb c d || occurs c r)%bool
  end.

(** [generateToken], on the 12 bytes that [crypto.getRandomValues] filled. *)
Definition generateToken (randomBytes : list byte) : string :=
  slice0 16 (strip (btoa randomBytes)).

End Token.

(** ** Request routing (scheduler.js, [fetch]) *)

Inductive Handler :=
  | HRegister | HSendMessage | HReplayMessages
  | HGetBalance | HListClients | HDelete | HOptions.

Inductive Routed :=
  | ToHandler (h : Handler)
  | NotFound404.

(** The [OPTIONS] test and the [switch (pathname)] of [fetch]; a [break]
    leaves the switch for the final [return new Response('Not found', ...)]. *)
Definition fetch_route (method pathname : string) : Routed :=
  if String.eqb method "OPTIONS" then ToHandler HOptions
  else if String.eqb pathname "/register" then
    if String.eqb method "PUT" then ToHandler HRegister else NotFound404
  else if String.eqb pathname "/messages" then
    if String.eqb method "POST" then ToHandler HSendMessage
    else if String.eqb method "GET" then ToHandler HReplayMessages
    else NotFound404
  else if String.eqb pathname "/balance" then
    if String.eqb method "GET" then ToHandler HGetBalance else NotFound404
  else if String.eqb pathname "/clients" then
    if String.eqb method "GET" then ToHandler HListClients else NotFound404
  else if String.eqb pathname "/delete" then
    if String.eqb method "GET" then ToHandler HDelete else NotFound404
  else NotFound404.

(** The method that the first statement of each handler insists on
    ([if (request.method !== ...) return 405]); [handleOptions] has none. *)
Definition handler_method (h : Handler) : option string :=
  match h with
  | HRegister => Some "PUT"
  | HSendMessage => Some "POST"
  | HReplayMessages => Some "GET"
  | HGetBalance => Some "GET"
  | HListClients => Some "GET"
  | HDelete => Some "GET"
  | HOptions => None
  end.

Definition method_guard_passes (h : Handler) (method : string) : bool :=
  match handler_method h with
  | Some m => String.eqb method m
  | None => true
  end.

(** A path that some [case] of the switch names. *)
Definition known_path (pathname : string) : bool :=
  (String.eqb pathname "/register" || String.eqb pathname "/messages"
   || String.eqb pathname "/balance" || String.eqb pathname "/clients"
   || String.eqb pathname "/delete")%bool.

(** ** JavaScript values *)

(** Numbers, on their integer values, and [NaN]. *)
Inductive jsnum := Num (z : Z) | NaN.

Definition num_add (a b : jsnum) : jsnum :=
  match a, b with Num x, Num y => Num (x + y) | _, _ => NaN end.
Definition num_sub (a b : jsnum) : jsnum :=
  match a, b with Num x, Num y => Num (x - y) | _, _ => NaN end.
(** [a < b]: false as soon as an operand is [NaN]. *)
Definition num_lt (a b : jsnum) : bool :=
  match a, b with Num x, Num y => x <? y | _, _ => false end.
(** [Math.min(a, b)] *)
Definition num_min (a b : jsnum) : jsnum :=
  match a, b with Num x, Num y => Num (Z.min x y) | _, _ => NaN end.

(** What settlement stores under a [message:] key. *)
Record AcceptedMessage := {
  am_message : string;
  bidderToken : string;
  bidderName : option string;
  timestamp : string
}.

Inductive jsval :=
  | JUndefined
  | JNum (n : jsnum)
  | JStr (s : string)
  | JMsg (m : AcceptedMessage).

(** The numeric coercion of the arithmetic operators. [undefined] and
    objects coerce to [NaN]; strings are taken to [NaN] as well (no string
    is ever stored under a [balance:] key, see [balances_numeric]). *)
Definition to_number (v : jsval) : jsnum :=
  match v with JNum n => n | _ => NaN end.

Definition to_name (v : jsval) : option string :=
  match v with JStr s => Some s | _ => None end.

(** [v == null] *)
Definition is_nullish (v : jsval) : bool :=
  match v with JUndefined => true | _ => false end.

(** ** An insertion-ordered map with string keys (JS [Map] and plain
    objects): [set] on a present key keeps the key's position. *)

Fixpoint jsmap_get {V} (k : string) (m : list (string * V)) : option V :=
  match m with
  | [] => None
  | (k', v) :: r => if String.eqb k k' then Some v else jsmap_get k r
  end.

Fixpoint jsmap_set {V} (k : string) (v : V) (m : list (string * V))
  : list (string * V) :=
  match m with
  | [] => [(k, v)]
  | (k', v') :: r =>
      if String.eqb k k' then (k, v) :: r else (k', v') :: jsmap_set k v r
  end.

(** ** The scheduler object *)

Record Bid := { token : string; message : string; bid : Z }.

(** A parked request: the token and the identity of its [resolve]. *)
Record Pending := { p_token : string; resolve : nat }.

Record Stats := { winBid : Z; sumBid : Z; nBids : nat }.

Record ResponseData := {
  rd_message : string;
  rd_balance : jsval;
  rd_name : jsval;
  rd_status : string;
  rd_stats : Stats
}.

Inductive Body :=
  | BText (s : string)
  | BEmpty
  | BRegistered (tok : string) (balance : Z) (name : string)
  | BBalance (balance name : jsval)
  | BSettlement (d : option ResponseData)
  | BDeleted
  | BListing.

Record Response := { status : Z; body : Body }.

(** What a caller of [fetch] gets: a response, or the promise that is
    resolved by a later settlement. *)
Inductive Reply := Now (r : Response) | Parked.

(** Which path ran a settlement (ghost). *)
Inductive Path := ViaThreshold | ViaAlarm | Dropped.

Record Scheduler := {
  storage : gmap string jsval;
  alarm_slot : option Z;
  batch : list Bid;
  pendingRequests : list Pending;
  processing : bool;
  (** the responses handed to [resolve] so far *)
  resolved : list (nat * Response);
  (** ghost: every bid pushed on the batch, in admission order *)
  ghost_admitted : list Bid;
  (** ghost: admission times of the bids in [batch] *)
  ghost_times : list Z;
  (** ghost: the batches that were reset, with the path that reset them *)
  ghost_closed : list (Path * list Bid)
}.

Definition set_storage (f : gmap string jsval → gmap string jsval)
  (s : Scheduler) : Scheduler :=
  {| storage := f (storage s); alarm_slot := alarm_slot s; batch := batch s;
     pendingRequests := pendingRequests s; processing := processing s;
     resolved := resolved s; ghost_admitted := ghost_admitted s;
     ghost_times := ghost_times s; ghost_closed := ghost_closed s |}.

Definition set_alarm_slot (a : option Z) (s : Scheduler) : Scheduler :=
  {| storage := storage s; alarm_slot := a; batch := batch s;
     pendingRequests := pendingRequests s; processing := processing s;
     resolved := resolved s; ghost_admitted := ghost_admitted s;
     ghost_times := ghost_times s; ghost_closed := ghost_closed s |}.

Definition set_processing (b : bool) (s : Scheduler) : Scheduler :=
  {| storage := storage s; alarm_slot := alarm_slot s; batch := batch s;
     pendingRequests := pendingRequests s; processing := b;
     resolved := resolved s; ghost_admitted := ghost_admitted s;
     ghost_times := ghost_times s; ghost_closed := ghost_closed s |}.

(** [this.batch.push(b)], at clock reading [t]. *)
Definition push_bid (b : Bid) (t : Z) (s : Scheduler) : Scheduler :=
  {| storage := storage s; alarm_slot := alarm_slot s;
     batch := batch s ++ [b];
     pendingRequests := pendingRequests s; processing := processing s;
     resolved := resolved s; ghost_admitted := ghost_admitted s ++ [b];
     ghost_times := ghost_times s ++ [t]; ghost_closed := ghost_closed s |}.

(** [this.pendingRequests.push(p)] *)
Definition push_pending (p : Pending) (s : Scheduler) : Scheduler :=
  {| storage := storage s; alarm_slot := alarm_slot s; batch := batch s;
     pendingRequests := pendingRequests s ++ [p]; processing := processing s;
     resolved := resolved s; ghost_admitted := ghost_admitted s;
     ghost_times := ghost_times s; ghost_closed := ghost_closed s |}.

(** [pending.resolve(r)] for each entry of [rs]. *)
Definition resolve_all (rs : list (nat * Response)) (s : Scheduler)
  : Scheduler :=
  {| storage := storage s; alarm_slot := alarm_slot s; batch := batch s;
     pendingRequests := pendingRequests s; processing := processing s;
     resolved := resolved s ++ rs; ghost_admitted := ghost_admitted s;
     ghost_times := ghost_times s; ghost_closed := ghost_closed s |}.

(** [this.batch = []; this.pendingRequests = []; this.processing = false] *)
Definition reset_state (via : Path) (s : Scheduler) : Scheduler :=
  {| storage := storage s; alarm_slot := alarm_slot s; batch := [];
     pendingRequests := []; processing := false;
     resolved := resolved s; ghost_admitted := ghost_admitted s;
     ghost_times := []; ghost_closed := ghost_closed s ++ [(via, batch s)] |}.

(** The environment bindings, after [parseInt] ([None] is [NaN]). *)
Record Env := {
  env_N : option Z;
  env_TIMEOUT : option Z;
  env_ACCUMULATE_BAL : option Z;
  env_START_BAL : option Z;
  env_MAX_BAL : option Z;
  ADMIN_TOKEN : string
}.

(** [parseInt(x) || d] *)
Definition or_default (p : option Z) (d : Z) : Z :=
  match p with
  | Some z => if z =? 0 then d else z
  | None => d
  end.

Record Config := {
  N : Z;
  timeout : Z;
  accumulate : Z;
  start : Z;
  max_bal : Z;
  admin_token : string
}.

(** The constructor's reading of the environment. *)
Definition constructor_config (env : Env) : Config :=
  {| N := or_default (env_N env) 5;
     timeout := or_default (env_TIMEOUT env) 5000;
     accumulate := or_default (env_ACCUMULATE_BAL env) 0;
     start := or_default (env_START_BAL env) 10;
     max_bal := or_default (env_MAX_BAL env) 100;
     admin_token := ADMIN_TOKEN env |}.

(** The constructor's fields, over the storage and alarm the runtime keeps. *)
Definition constructor_state (st : gmap string jsval) (a : option Z)
  : Scheduler :=
  {| storage := st; alarm_slot := a; batch := []; pendingRequests := [];
     processing := false; resolved := []; ghost_admitted := [];
     ghost_times := []; ghost_closed := [] |}.

(** ** Requests and the inputs the environment supplies *)

Inductive jbid := BidMissing | BidNotNumber | BidNumber (z : Z).

(** The parsed JSON body, as far as the handlers destructure it. *)
Record JsonBody := {
  j_name : option string;
  j_message : option string;
  j_bid : jbid
}.

Record Request := {
  method : string;
  pathname : string;
  x_client_token : option string;
  authorization : option string;
  (** [None]: [parseRequestBody] throws *)
  json : option JsonBody
}.

Record Inputs := {
  rid : nat;                 (** identity of the request's promise *)
  randomBytes : list byte;   (** [crypto.getRandomValues] *)
  now : Z;                   (** [Date.now()] *)
  iso_now : string;          (** [new Date().toISOString()] *)
  rnd5 : string              (** [Math.random().toString(36).substring(2, 7)] *)
}.

(** [bid == null] *)
Definition bid_is_null (b : jbid) : bool :=
  match b with BidMissing => true | _ => false end.

(** [!s] for a string that may be absent. *)
Definition falsy (s : option string) : bool :=
  match s with
  | None => true
  | Some x => String.eqb x ""
  end.

Definition balance_key (t : string) : string := "balance:" +:+ t.
Definition name_key (t : string) : string := "name:" +:+ t.
Definition message_key (i : Inputs) : string :=
  "message:" +:+ pretty (now i) +:+ "-" +:+ rnd5 i.

(** ** The state and exception monad of the handlers *)

Inductive Res (A : Type) := Ok (a : A) | Throw (e : string).
Arguments Ok {A} a.
Arguments Throw {A} e.

Definition M (A : Type) : Type := Scheduler → Scheduler * Res A.

Definition ret {A} (a : A) : M A := λ s, (s, Ok a).
Definition throw {A} (e : string) : M A := λ s, (s, Throw e).
Definition bind {A B} (m : M A) (k : A → M B) : M B :=
  λ s, match m s with
       | (s', Ok a) => k a s'
       | (s', Throw e) => (s', Throw e)
       end.
Definition get_state : M Scheduler := λ s, (s, Ok s).
Definition modify (f : Scheduler → Scheduler) : M unit := λ s, (f s, Ok tt).

Notation "x <-- m ;; k" := (bind m (λ x, k))
  (at level 100, m at next level, right associativity).
Notation "m ;;; k" := (bind m (λ _, k))
  (at level 100, right associativity).

(** The storage calls of the source, by line. *)
Inductive Site :=
  | L89 | L90 | L110 | L111 | L139 | L154 | L194 | L235
  | L269 | L288 | L289 | L332 | L344
  | L398 | L404 | L410 | L416 | L422.

(** [get(keys)]: the entries of [st] at [keys]. *)
Definition get_many (st : gmap string jsval) (keys : list string)
  : gmap string jsval :=
  foldr (λ k acc, match st !! k with
                  | Some v => <[k := v]> acc
                  | None => acc
                  end) ∅ keys.

(** [m.get(k)] on a result of [get], or [storage.get(k)]. *)
Definition map_get (m : gmap string jsval) (k : string) : jsval :=
  default JUndefined (m !! k).

(** [put({k: v, ...})] *)
Definition put_many (entries : list (string * jsval))
  (st : gmap string jsval) : gmap string jsval :=
  fold_left (λ acc kv, <[kv.1 := kv.2]> acc) entries st.

(** [list({prefix})], keys only (their order is not used by the source). *)
Definition list_keys (prefix : string) (st : gmap string jsval)
  : list string :=
  filter (λ k, String.prefix prefix k = true) (map_to_list st).*1.

(** [delete(keys)] *)
Definition delete_many (keys : list string) (st : gmap string jsval)
  : gmap string jsval :=
  foldr delete st keys.

(** ** Settlement: the pure parts of [processBatch] *)

(** Body of the loop over [this.batch] that fills [uniqueBidsMap]. *)
Definition dedup_step (m : list (string * Bid)) (b : Bid)
  : list (string * Bid) :=
  match jsmap_get (token b) m with
  | None => jsmap_set (token b) b m
  | Some existingBid =>
      if bid b >? bid existingBid then jsmap_set (token b) b m else m
  end.

Definition uniqueBidsMap (batch : list Bid) : list (string * Bid) :=
  fold_left dedup_step batch [].

(** [Array.from(uniqueBidsMap.values())] *)
Definition uniqueBids (batch : list Bid) : list Bid :=
  (uniqueBidsMap batch).*2.

(** [uniqueBids.sort((a, b) => b.bid - a.bid)]: a stable sort, descending. *)
Fixpoint insert_desc (x : Bid) (l : list Bid) : list Bid :=
  match l with
  | [] => [x]
  | y :: r => if bid y <? bid x then x :: y :: r else y :: insert_desc x r
  end.

Definition sort_desc (l : list Bid) : list Bid := foldr insert_desc [] l.

(** [x || 0] on [uniqueBids[1]?.bid] *)
Definition or_zero (o : option Z) : Z :=
  match o with
  | Some b => if b =? 0 then 0 else b
  | None => 0
  end.

Definition jsmap_get_val (k : string) (m : list (string * jsval)) : jsval :=
  default JUndefined (jsmap_get k m).

(** The loop that copies the fetched entries into a [Map] keyed by token. *)
Definition load_map (key_of : string → string) (tokens : list string)
  (obj : gmap string jsval) : list (string * jsval) :=
  fold_left (λ acc t, jsmap_set t (map_get obj (key_of t)) acc) tokens [].

(** The loop that writes the [balances] map into [updatedBalances]. *)
Definition balance_entries (balances : list (string * jsval))
  : list (string * jsval) :=
  (λ tb : string * jsval, (balance_key tb.1, tb.2)) <$> balances.

(** The winner's deduction, clamped at zero. *)
Definition deduct (balance : jsval) (secondHighestBid : Z) : jsnum :=
  let highestBalance := num_sub (to_number balance) (Num secondHighestBid) in
  if num_lt highestBalance (Num 0) then Num 0 else highestBalance.

Section Handlers.

Variable cfg : Config.
(** Which storage calls throw. *)
Variable fails : Site → bool.

Definition storage_call {A} (l : Site) (op : Scheduler → Scheduler * A)
  : M A :=
  λ s, if fails l then (s, Throw "storage error")
       else let '(s', a) := op s in (s', Ok a).

Definition storage_get (l : Site) (k : string) : M jsval :=
  storage_call l (λ s, (s, map_get (storage s) k)).
Definition storage_get_keys (l : Site) (ks : list string)
  : M (gmap string jsval) :=
  storage_call l (λ s, (s, get_many (storage s) ks)).
Definition storage_put (l : Site) (k : string) (v : jsval) : M unit :=
  storage_call l (λ s, (set_storage (insert k v) s, tt)).
Definition storage_put_object (l : Site) (entries : list (string * jsval))
  : M unit :=
  storage_call l (λ s, (set_storage (put_many entries) s, tt)).
Definition storage_deleteAlarm (l : Site) : M unit :=
  storage_call l (λ s, (set_alarm_slot None s, tt)).
Definition storage_list (l : Site) (prefix : string) : M (list string) :=
  storage_call l (λ s, (s, list_keys prefix (storage s))).
Definition storage_delete (l : Site) (keys : list string) : M unit :=
  storage_call l (λ s, (set_storage (delete_many keys) s, tt)).
(** [setAlarm] is not awaited by the source: it cannot throw into it. *)
Definition storage_setAlarm (t : Z) : M unit :=
  modify (set_alarm_slot (Some t)).

(** [Math.min(this.max_bal, balance + this.accumulate)] *)
Definition reward (balance : jsval) : jsnum :=
  num_min (Num (max_bal cfg))
          (num_add (to_number balance) (Num (accumulate cfg))).

(** Body of the loop that rewards the bidders other than the winner. *)
Definition accumulate_step (highestToken : string)
  (balances : list (string * jsval)) (b : Bid) : list (string * jsval) :=
  if String.eqb (token b) highestToken then balances
  else
    let balance := jsmap_get_val (token b) balances in
    let balance := reward balance in
    jsmap_set (token b) (JNum balance) balances.

(** The [balances] map after the winner's deduction and the rewards. *)
Definition settle_balances (loaded : list (string * jsval))
  (sorted : list Bid) (highestToken : string) (secondHighestBid : Z)
  : list (string * jsval) :=
  let highestBalance :=
    deduct (jsmap_get_val highestToken loaded) secondHighestBid in
  let balances := jsmap_set highestToken (JNum highestBalance) loaded in
  fold_left (accumulate_step highestToken) sorted balances.

(** The [responses] object, one entry per token of the batch. *)
Definition build_responses (batch : list Bid) (highestBidder : Bid)
  (balances names : list (string * jsval)) (stats : Stats)
  : list (string * ResponseData) :=
  fold_left
    (λ acc b,
       jsmap_set (token b)
         {| rd_message := message highestBidder;
            rd_balance := jsmap_get_val (token b) balances;
            rd_name := jsmap_get_val (token b) names;
            rd_status :=
              if String.eqb (token b) (token highestBidder)
              then "accepted" else "rejected";
            rd_stats := stats |} acc)
    batch [].

Definition settlement_response (responses : list (string * ResponseData))
  (p : Pending) : nat * Response :=
  (resolve p,
   {| status := 200; body := BSettlement (jsmap_get (p_token p) responses) |}).

(** [processBatch]. [via] only tags the ghost record of the reset. *)
Definition processBatch (via : Path) (i : Inputs) : M unit :=
  s0 <-- get_state ;;
  if processing s0 then ret tt
  else
    modify (set_processing true) ;;;
    storage_deleteAlarm L269 ;;;
    s <-- get_state ;;
    let unique := uniqueBids (batch s) in
    let nBids := length unique in
    let tokens := token <$> unique in
    let balanceKeys := balance_key <$> tokens in
    let nameKeys := name_key <$> tokens in
    balancesObj <-- storage_get_keys L288 balanceKeys ;;
    namesObj <-- storage_get_keys L289 nameKeys ;;
    let balances := load_map balance_key tokens balancesObj in
    let names := load_map name_key tokens namesObj in
    let sorted := sort_desc unique in
    match sorted with
    | [] => throw "TypeError"
    | highestBidder :: rest =>
        let secondHighestBid := or_zero (bid <$> head rest) in
        let sumBid := fold_left (λ acc b, acc + bid b) sorted 0 in
        let highestToken := token highestBidder in
        let balances :=
          settle_balances balances sorted highestToken secondHighestBid in
        let updatedBalances :=
          balance_entries balances in
        storage_put_object L332 updatedBalances ;;;
        let acceptedMessage :=
          {| am_message := message highestBidder;
             bidderToken := highestToken;
             bidderName := to_name (jsmap_get_val highestToken names);
             timestamp := iso_now i |} in
        storage_put L344 (message_key i) (JMsg acceptedMessage) ;;;
        let stats :=
          {| winBid := secondHighestBid; sumBid := sumBid; nBids := nBids |} in
        s' <-- get_state ;;
        let responses :=
          build_responses (batch s') highestBidder balances names stats in
        modify (resolve_all
                  (settlement_response responses <$> pendingRequests s')) ;;;
        modify (reset_state via)
    end.

(** ** The handlers *)

Definition text_response (code : Z) (s : string) : Reply :=
  Now {| status := code; body := BText s |}.

Definition parseRequestBody (r : Request) : M JsonBody :=
  match json r with
  | Some b => ret b
  | None => throw "Unsupported Content-Type"
  end.

Definition handleOptions : Reply := Now {| status := 200; body := BEmpty |}.

Definition handleRegister (r : Request) (i : Inputs) : M Reply :=
  if negb (String.eqb (method r) "PUT") then
    ret (text_response 405 "Method Not Allowed")
  else
    b <-- parseRequestBody r ;;
    if falsy (j_name b) then ret (text_response 400 "Name is required")
    else
      let name := default "" (j_name b) in
      let tok := Token.generateToken (randomBytes i) in
      let balance := start cfg in
      storage_put L89 (balance_key tok) (JNum (Num balance)) ;;;
      storage_put L90 (name_key tok) (JStr name) ;;;
      ret (Now {| status := 200; body := BRegistered tok balance name |}).

Definition handleGetBalance (r : Request) : M Reply :=
  if negb (String.eqb (method r) "GET") then
    ret (text_response 405 "Method Not Allowed")
  else if falsy (x_client_token r) then
    ret (text_response 400 "Missing token header")
  else
    let tok := default "" (x_client_token r) in
    balance <-- storage_get L110 (balance_key tok) ;;
    name <-- storage_get L111 (name_key tok) ;;
    if is_nullish balance then ret (text_response 400 "Invalid token")
    else ret (Now {| status := 200; body := BBalance balance name |}).

Definition authorized (r : Request) : bool :=
  match authorization r with
  | Some a => String.eqb a ("Bearer " +:+ admin_token cfg)
  | None => false
  end.

(** The listing handlers read the storage only; their payload (pages of
    clients, pages of messages) is left out of the embedding. *)
Definition handleListClients (r : Request) : M Reply :=
  if negb (String.eqb (method r) "GET") then
    ret (text_response 405 "Method Not Allowed")
  else if negb (authorized r) then ret (text_response 401 "Unauthorized")
  else
    keys <-- storage_list L139 "balance:" ;;
    _ <-- storage_get_keys L154 keys ;;
    ret (Now {| status := 200; body := BListing |}).

Definition handleReplayMessages (r : Request) : M Reply :=
  if negb (String.eqb (method r) "GET") then
    ret (text_response 405 "Method Not Allowed")
  else
    _ <-- storage_list L194 "message:" ;;
    ret (Now {| status := 200; body := BListing |}).

Definition handleSendMessage (r : Request) (i : Inputs) : M Reply :=
  if negb (String.eqb (method r) "POST") then
    ret (text_response 405 "Method Not Allowed")
  else if falsy (x_client_token r) then
    ret (text_response 400 "Missing token header")
  else
    let tok := default "" (x_client_token r) in
    b <-- parseRequestBody r ;;
    if (falsy (j_message b) || bid_is_null (j_bid b))%bool then
      ret (text_response 400 "Missing parameters")
    else
      let msg := default "" (j_message b) in
      match j_bid b with
      | BidMissing | BidNotNumber =>
          ret (text_response 400 "Invalid bid amount")
      | BidNumber amount =>
          if amount <=? 0 then ret (text_response 400 "Invalid bid amount")
          else
            clientBalance <-- storage_get L235 (balance_key tok) ;;
            if (is_nullish clientBalance
                || num_lt (to_number clientBalance) (Num amount))%bool then
              ret (text_response 400 "Invalid token or insufficient balance")
            else
              modify (push_bid {| token := tok; message := msg; bid := amount |}
                               (now i)) ;;;
              s <-- get_state ;;
              (if (length (batch s) =? 1)%nat
               then storage_setAlarm (now i + timeout cfg) else ret tt) ;;;
              if Z.of_nat (length (batch s)) >=? N cfg then
                processBatch ViaThreshold i ;;;
                (* "This point should not be reached" *)
                ret (text_response 500 "Unexpected error")
              else
                modify (push_pending {| p_token := tok; resolve := rid i |}) ;;;
                ret Parked
      end.

Definition handleDelete (r : Request) : M Reply :=
  if negb (String.eqb (method r) "GET") then
    ret (text_response 405 "Method Not Allowed")
  else if negb (authorized r) then ret (text_response 401 "Unauthorized")
  else
    storage_deleteAlarm L398 ;;;
    balanceList <-- storage_list L404 "balance:" ;;
    nameList <-- storage_list L410 "name:" ;;
    messageList <-- storage_list L416 "message:" ;;
    let allKeys := balanceList ++ nameList ++ messageList in
    storage_delete L422 allKeys ;;;
    modify (reset_state Dropped) ;;;
    ret (Now {| status := 200; body := BDeleted |}).

(** [alarm] *)
Definition alarm (i : Inputs) : M unit :=
  s <-- get_state ;;
  if (0 <? length (batch s))%nat then processBatch ViaAlarm i else ret tt.

(** [fetch]: the routing, and the [catch] that turns a throw into a 500. *)
Definition fetch (r : Request) (i : Inputs) : M Reply :=
  λ s,
    let handler : M Reply :=
      match fetch_route (method r) (pathname r) with
      | ToHandler HOptions => ret handleOptions
      | ToHandler HRegister => handleRegister r i
      | ToHandler HSendMessage => handleSendMessage r i
      | ToHandler HReplayMessages => handleReplayMessages r
      | ToHandler HGetBalance => handleGetBalance r
      | ToHandler HListClients => handleListClients r
      | ToHandler HDelete => handleDelete r
      | NotFound404 => ret (text_response 404 "Not found")
      end in
    match handler s with
    | (s', Throw _) => (s', Ok (text_response 500 "Internal Server Error"))
    | out => out
    end.

(** ** The scheduler as a transition system *)

Inductive Event :=
  | EFetch (r : Request) (i : Inputs)
  | EAlarm (i : Inputs).

(** The runtime fires the alarm once its time has come. *)
Definition enabled (e : Event) (s : Scheduler) : Prop :=
  match e with
  | EFetch _ _ => True
  | EAlarm i => ∃ t, alarm_slot s = Some t ∧ t ≤ now i
  end.

(** A firing empties the alarm slot and runs [alarm]. *)
Definition step (e : Event) (s : Scheduler) : Scheduler :=
  match e with
  | EFetch r i => (fetch r i s).1
  | EAlarm i => (alarm i (set_alarm_slot None s)).1
  end.

Inductive reachable : Scheduler → Prop :=
  | reach_init : reachable (constructor_state ∅ None)
  | reach_step s e : reachable s → enabled e s → reachable (step e s).

End Handlers.

(** No storage call throws. *)
Definition no_faults : Site → bool := λ _, false.

(** ** The pages of [handleListClients] and [handleReplayMessages] *)

(** [arr.slice(start, end)] on integer arguments: a negative index counts
    from the end, and both are clamped to the array. *)
Definition js_slice {A} (start end_ : Z) (l : list A) : list A :=
  let len := Z.of_nat (length l) in
  let k := if start <? 0 then Z.max (len + start) 0 else Z.min start len in
  let final := if end_ <? 0 then Z.max (len + end_) 0 else Z.min end_ len in
  take (Z.to_nat (final - k)) (drop (Z.to_nat k) l).

(** [Math.ceil(a / b)] on integers, [b] not zero. *)
Definition ceil_div (a b : Z) : Z := - ((- a) / b).

Record ClientPage := {
  pageTokens : list string;
  cp_page : Z;
  cp_pageSize : Z;
  totalClients : Z;
  totalPages : Z
}.

(** The pagination of [handleListClients]: [page] and [pageSize] are the
    query parameters after [parseInt], [tokens] the tokens of the listing. *)
Definition list_clients_page (page pageSize : option Z)
  (tokens : list string) : ClientPage :=
  let page := or_default page 1 in
  let pageSize := or_default pageSize 10 in
  let totalClients := Z.of_nat (length tokens) in
  let totalPages := ceil_div totalClients pageSize in
  let start := (page - 1) * pageSize in
  let end_ := start + pageSize in
  {| pageTokens := js_slice start end_ tokens;
     cp_page := page; cp_pageSize := pageSize;
     totalClients := totalClients; totalPages := totalPages |}.

(** The page of [handleReplayMessages]: [limit] is the query parameter
    after [parseInt], [entries] what the listing returned, in its order. *)
Definition replay_page (limit : option Z) (entries : list (string * jsval))
  : list jsval * option string :=
  let limit := or_default limit 10 in
  let messages := entries.*2 in
  let lastKey := last entries.*1 in
  let hasMore := Z.of_nat (length messages) =? limit in
  (messages, if hasMore then lastKey else None).

(** * The vocabulary of the properties *)

(** ** Routing *)

(** The methods a path of the switch dispatches. *)
Definition route_accepts (pathname method : string) : bool :=
  match fetch_route method pathname with
  | ToHandler _ => true
  | NotFound404 => false
  end.

Definition bare_request (m p : string) : Request :=
  {| method := m; pathname := p; x_client_token := None;
     authorization := None; json := None |}.

(** ** Deduplication, order and price *)

(** What the deduplication keeps for token [t]: nothing when [t] placed no
    bid, and otherwise a bid of [t] in the batch that no bid of [t] exceeds
    and that every earlier bid of [t] is strictly below. *)
Definition kept_spec (l : list Bid) (t : string) (o : option Bid) : Prop :=
  match o with
  | None => ∀ b, b ∈ l → token b ≠ t
  | Some b =>
      ∃ i, l !! i = Some b ∧ token b = t ∧
           ∀ j b', l !! j = Some b' → token b' = t →
                   bid b' ≤ bid b ∧ ((j < i)%nat → bid b' < bid b)
  end.

Definition desc (a b : Bid) : Prop := bid b ≤ bid a.


(** ** A settlement as a function of the state *)

Section SettlementDefs.

Variable cfg : Config.

(** The [balances] map of a settlement of [batch] over the storage [st]. *)
Definition settled_balances (st : gmap string jsval) (batch : list Bid)
  : list (string * jsval) :=
  let unique := uniqueBids batch in
  let tokens := token <$> unique in
  let loaded :=
    load_map balance_key tokens (get_many st (balance_key <$> tokens)) in
  match sort_desc unique with
  | [] => loaded
  | highestBidder :: rest =>
      settle_balances cfg loaded (highestBidder :: rest)
        (token highestBidder) (or_zero (bid <$> head rest))
  end.

Definition loaded_names (st : gmap string jsval) (batch : list Bid)
  : list (string * jsval) :=
  let tokens := token <$> uniqueBids batch in
  load_map name_key tokens (get_many st (name_key <$> tokens)).

Definition round_stats (batch : list Bid) : Stats :=
  let sorted := sort_desc (uniqueBids batch) in
  {| winBid := or_zero (bid <$> head (tail sorted));
     sumBid := fold_left (λ acc b, acc + bid b) sorted 0;
     nBids := length (uniqueBids batch) |}.

(** The state a settlement that does not throw leaves. *)
Definition settle (via : Path) (i : Inputs) (highestBidder : Bid)
  (s : Scheduler) : Scheduler :=
  let balances := settled_balances (storage s) (batch s) in
  let names := loaded_names (storage s) (batch s) in
  let acceptedMessage :=
    {| am_message := message highestBidder;
       bidderToken := token highestBidder;
       bidderName := to_name (jsmap_get_val (token highestBidder) names);
       timestamp := iso_now i |} in
  let responses :=
    build_responses (batch s) highestBidder balances names
      (round_stats (batch s)) in
  reset_state via
    (resolve_all (settlement_response responses <$> pendingRequests s)
       (set_storage (insert (message_key i) (JMsg acceptedMessage))
          (set_storage (put_many (balance_entries balances))
             (set_alarm_slot None (set_processing true s))))).

(** The balance a settlement computes for the token [t] of a bidder. *)
Definition new_balance (st : gmap string jsval) (hb : Bid) (second : Z)
  (t : string) : jsnum :=
  if String.eqb t (token hb)
  then deduct (map_get st (balance_key t)) second
  else reward cfg (map_get st (balance_key t)).

(** The sites a settlement calls. *)
Definition settlement_sites : list Site := [L269; L288; L289; L332; L344].

End SettlementDefs.

(** ** The steps of the scheduler *)

Section TransitionDefs.

Variable cfg : Config.

(** [setAlarm] on the first bid of a batch. *)
Definition arm (i : Inputs) (s : Scheduler) : Scheduler :=
  if (length (batch s) =? 1)%nat
  then set_alarm_slot (Some (now i + timeout cfg)) s else s.

(** The push of an admitted bid and the arming of the alarm. *)
Definition enqueue (i : Inputs) (b : Bid) (s : Scheduler) : Scheduler :=
  arm i (push_bid b (now i) s).

(** The checks of [handleSendMessage] on the amount and the balance. *)
Definition passes_checks (s : Scheduler) (b : Bid) : Prop :=
  (bid b <=? 0) = false
  ∧ (is_nullish (map_get (storage s) (balance_key (token b)))
     || num_lt (to_number (map_get (storage s) (balance_key (token b))))
          (Num (bid b)))%bool = false.

Definition at_threshold (s : Scheduler) : bool :=
  Z.of_nat (length (batch s)) >=? N cfg.

Definition registered (tok name : string) (s : Scheduler) : Scheduler :=
  set_storage (insert (name_key tok) (JStr name))
    (set_storage (insert (balance_key tok) (JNum (Num (start cfg)))) s).

Definition wiped (s : Scheduler) : Scheduler :=
  let st := storage s in
  reset_state Dropped
    (set_storage
       (delete_many (list_keys "balance:" st ++ list_keys "name:" st
                     ++ list_keys "message:" st))
       (set_alarm_slot None s)).

Inductive send_outcome (fails : Site → bool) (i : Inputs) (s : Scheduler)
  : Scheduler * Res Reply → Prop :=
  | send_refused res : send_outcome fails i s (s, res)
  | send_parks b :
      passes_checks s b → at_threshold (enqueue i b s) = false →
      send_outcome fails i s
        (push_pending {| p_token := token b; resolve := rid i |}
           (enqueue i b s), Ok Parked)
  | send_settles b :
      passes_checks s b → at_threshold (enqueue i b s) = true →
      send_outcome fails i s
        (bind (processBatch cfg fails ViaThreshold i)
           (λ _, ret (text_response 500 "Unexpected error"))
           (enqueue i b s)).

(** The state changes of the failure-free scheduler, by event. *)
Inductive transition (s : Scheduler) : Event → Scheduler → Prop :=
  | t_none e : transition s e s
  | t_register r i tok name :
      transition s (EFetch r i) (registered tok name s)
  | t_park r i b :
      passes_checks s b → at_threshold (enqueue i b s) = false →
      transition s (EFetch r i)
        (push_pending {| p_token := token b; resolve := rid i |}
           (enqueue i b s))
  | t_threshold r i b hb rest :
      passes_checks s b → at_threshold (enqueue i b s) = true →
      sort_desc (uniqueBids (batch s ++ [b])) = hb :: rest →
      transition s (EFetch r i) (settle cfg ViaThreshold i hb (enqueue i b s))
  | t_alarm i t hb rest :
      alarm_slot s = Some t → t ≤ now i →
      sort_desc (uniqueBids (batch s)) = hb :: rest →
      transition s (EAlarm i) (settle cfg ViaAlarm i hb s)
  | t_alarm_idle i :
      batch s = [] → transition s (EAlarm i) (set_alarm_slot None s)
  | t_wipe r i :
      fetch_route (method r) (pathname r) = ToHandler HDelete →
      transition s (EFetch r i) (wiped s).

End TransitionDefs.



(** ** Invariants *)

Section InvariantDefs.

Variable cfg : Config.

(** The configuration under which the cap on balances can hold. *)
Definition sane_config : Prop :=
  0 ≤ start cfg ≤ max_bal cfg ∧ 0 ≤ accumulate cfg.

(** What holds of the storage and the batch, also in the middle of
    [handleSendMessage]. *)
Record Sound (s : Scheduler) : Prop := {
  inv_processing : processing s = false;
  inv_ledger : ghost_admitted s = concat (ghost_closed s).*2 ++ batch s;
  inv_numeric :
    ∀ t v, storage s !! balance_key t = Some v → ∃ z, v = JNum (Num z);
  inv_bidders :
    ∀ b, b ∈ batch s →
         0 < bid b
         ∧ ∃ z, storage s !! balance_key (token b) = Some (JNum (Num z))
                ∧ 0 ≤ z;
  inv_negative_start :
    start cfg < 0 →
    batch s = []
    ∧ ∀ t v, storage s !! balance_key t = Some v
             → v = JNum (Num (start cfg));
  inv_cap :
    sane_config →
    ∀ t z, storage s !! balance_key t = Some (JNum (Num z))
           → 0 ≤ z ≤ max_bal cfg
}.

(** What holds between two handlers. *)
Record Coupled (s : Scheduler) : Prop := {
  inv_times : length (ghost_times s) = length (batch s);
  inv_alarm :
    alarm_slot s = (λ t0, t0 + timeout cfg) <$> head (ghost_times s);
  inv_parked : p_token <$> pendingRequests s = token <$> batch s
}.

End InvariantDefs.

(** ** Scenarios *)

Definition default_config : Config :=
  constructor_config
    {| env_N := None; env_TIMEOUT := None; env_ACCUMULATE_BAL := None;
       env_START_BAL := None; env_MAX_BAL := None; ADMIN_TOKEN := "admin" |}.

(** The environment sets [START_BAL] to 200 and leaves [MAX_BAL] at 100. *)
Definition start_above_cap : Config :=
  constructor_config
    {| env_N := None; env_TIMEOUT := None; env_ACCUMULATE_BAL := None;
       env_START_BAL := Some 200; env_MAX_BAL := None;
       ADMIN_TOKEN := "admin" |}.


Definition inputs_at (r : nat) (t : Z) : Inputs :=
  {| rid := r; randomBytes := []; now := t; iso_now := "";
     rnd5 := "aaaaa" |}.

(** Inputs of a registration whose twelve random bytes are all [b]. *)
Definition register_inputs (b : byte) (t : Z) : Inputs :=
  {| rid := 0%nat; randomBytes := repeat b 12; now := t; iso_now := "";
     rnd5 := "aaaaa" |}.

Definition token_of (b : byte) : string := Token.generateToken (repeat b 12).

Definition register_request (name : string) : Request :=
  {| method := "PUT"; pathname := "/register"; x_client_token := None;
     authorization := None;
     json := Some {| j_name := Some name; j_message := None;
                     j_bid := BidMissing |} |}.

Definition send_request (tok msg : string) (amount : Z) : Request :=
  {| method := "POST"; pathname := "/messages"; x_client_token := Some tok;
     authorization := None;
     json := Some {| j_name := None; j_message := Some msg;
                     j_bid := BidNumber amount |} |}.

Definition run (cfg : Config) (es : list Event) : Scheduler :=
  fold_left (λ s e, step cfg no_faults e s) es (constructor_state ∅ None).

Definition bid_a1 : Bid := {| token := "A"; message := "first"; bid := 3 |}.
Definition bid_a2 : Bid := {| token := "A"; message := "second"; bid := 3 |}.

(** Alice registers and bids 3. *)
Definition alice_bids : list Event :=
  [EFetch (register_request "Alice") (register_inputs Byte.x00 0);
   EFetch (send_request (token_of Byte.x00) "hi" 3) (inputs_at 1 10)].


(** Five clients register; the first four bid 1, 2, 3 and 4. *)
Definition four_parked : list Event :=
  [EFetch (register_request "A") (register_inputs Byte.x00 0);
   EFetch (register_request "B") (register_inputs Byte.x01 1);
   EFetch (register_request "C") (register_inputs Byte.x02 2);
   EFetch (register_request "D") (register_inputs Byte.x03 3);
   EFetch (register_request "E") (register_inputs Byte.x04 4);
   EFetch (send_request (token_of Byte.x00) "a" 1) (inputs_at 1 10);
   EFetch (send_request (token_of Byte.x01) "b" 2) (inputs_at 2 11);
   EFetch (send_request (token_of Byte.x02) "c" 3) (inputs_at 3 12);
   EFetch (send_request (token_of Byte.x03) "d" 4) (inputs_at 4 13)].

Definition fifth_bid : Request := send_request (token_of Byte.x04) "e" 5.

(** ** The outcomes of a request *)

(** What the checks of [handleSendMessage] leave of a bid. *)
Definition valid_bid (b : Bid) : Prop :=
  token b ≠ "" ∧ message b ≠ "" ∧ 0 < bid b.

(** Every bid of the batch of [s'] was in the batch of [s] or passed the
    checks. *)
Definition batch_grown (s s' : Scheduler) : Prop :=
  ∀ b, b ∈ batch s' → b ∈ batch s ∨ valid_bid b.

(** The ways [handleSendMessage] ends. *)
Inductive send_case (cfg : Config) (fails : Site → bool) (r : Request)
  (i : Inputs) (s : Scheduler) : Scheduler * Res Reply → Prop :=
  | sc_wrong_method :
      method r ≠ "POST" →
      send_case cfg fails r i s
        (s, Ok (text_response 405 "Method Not Allowed"))
  | sc_rejected msg :
      send_case cfg fails r i s (s, Ok (text_response 400 msg))
  | sc_threw e :
      json r = None ∨ fails L235 = true →
      send_case cfg fails r i s (s, Throw e)
  | sc_parks b :
      valid_bid b →
      passes_checks s b → at_threshold cfg (enqueue cfg i b s) = false →
      send_case cfg fails r i s
        (push_pending {| p_token := token b; resolve := rid i |}
           (enqueue cfg i b s), Ok Parked)
  | sc_settles b :
      valid_bid b →
      passes_checks s b → at_threshold cfg (enqueue cfg i b s) = true →
      send_case cfg fails r i s
        (bind (processBatch cfg fails ViaThreshold i)
           (λ _, ret (text_response 500 "Unexpected error"))
           (enqueue cfg i b s)).

(** The statuses [fetch] answers with. *)
Definition answered_status (z : Z) : Prop :=
  z = 200 ∨ z = 400 ∨ z = 401 ∨ z = 404 ∨ z = 500.

(** The requests that reach a handler that writes. *)
Definition writing_request (r : Request) : Prop :=
  (method r = "PUT" ∧ pathname r = "/register")
  ∨ (method r = "POST" ∧ pathname r = "/messages")
  ∨ (method r = "GET" ∧ pathname r = "/delete").

(** The ways [fetch] ends. *)
Inductive fetch_case (cfg : Config) (fails : Site → bool) (r : Request)
  (i : Inputs) (s : Scheduler) : Scheduler * Res Reply → Prop :=
  | fc_refused code msg :
      code = 400 ∨ code = 401 ∨ code = 404 →
      fetch_case cfg fails r i s (s, Ok (text_response code msg))
  | fc_read b :
      fetch_case cfg fails r i s (s, Ok (Now {| status := 200; body := b |}))
  | fc_failed s' :
      (json r = None ∧ s' = s) ∨ (∃ l, fails l = true) →
      writing_request r ∨ s' = s →
      batch_grown s s' →
      fetch_case cfg fails r i s
        (s', Ok (text_response 500 "Internal Server Error"))
  | fc_wrote s' b :
      writing_request r →
      batch_grown s s' →
      fetch_case cfg fails r i s (s', Ok (Now {| status := 200; body := b |}))
  | fc_parked s' :
      writing_request r →
      batch_grown s s' →
      fetch_case cfg fails r i s (s', Ok Parked)
  | fc_fell_through s' :
      writing_request r →
      batch_grown s s' →
      fetch_case cfg fails r i s (s', Ok (text_response 500 "Unexpected error")).

(** ** The outcome of a settlement *)


(** Sum of the amounts of a list of bids. *)
Definition sum_bids (l : list Bid) : Z := foldr (λ b acc, bid b + acc) 0 l.

(** A key of one of the three namespaces the scheduler writes. *)
Definition namespaced (k : string) : Prop :=
  String.prefix "balance:" k = true
  ∨ String.prefix "name:" k = true
  ∨ String.prefix "message:" k = true.

(** ** The pages of a listing *)

(** The pages [1 .. n] of a listing, one after the other. *)
Definition pages_upto (pageSize : option Z) (tokens : list string) (n : nat)
  : list string :=
  concat ((λ p, pageTokens
                  (list_clients_page (Some (Z.of_nat (S p))) pageSize tokens))
          <$> seq 0 n).

(** ** The alphabet of tokens *)

Module TokenAlphabet.

Definition in_range (lo hi : BinNums.N) (c : ascii) : bool :=
  (N.leb lo (N_of_ascii c) && N.leb (N_of_ascii c) hi)%bool.

(** A letter or a digit. *)
Definition is_alnum (c : ascii) : bool :=
  (in_range 65 90 c || in_range 97 122 c || in_range 48 57 c)%bool.

Fixpoint all_chars (p : ascii → bool) (s : string) : bool :=
  match s with
  | EmptyString => true
  | String c r => (p c && all_chars p r)%bool
  end.

(** The 256 bytes. *)
Definition all_bytes : list byte := omap Byte.of_nat (seq 0 256).

(** A character the base64 text of whole triples can hold. *)
Definition is_base64 (c : ascii) : bool :=
  (is_alnum c || Token.is_plus_or_slash c)%bool.

End TokenAlphabet.

(** ** More scenarios *)

Definition balance_request (tok : string) : Request :=
  {| method := "GET"; pathname := "/balance"; x_client_token := Some tok;
     authorization := None; json := None |}.

Definition delete_request (auth : option string) : Request :=
  {| method := "GET"; pathname := "/delete"; x_client_token := None;
     authorization := auth; json := None |}.

(** The state after the first of the two writes of a registration. *)
Definition balance_written (cfg : Config) (tok : string) (s : Scheduler)
  : Scheduler :=
  set_storage (insert (balance_key tok) (JNum (Num (start cfg)))) s.

(** Only the write of the name throws. *)
Definition name_write_fails (l : Site) : bool :=
  match l with L90 => true | _ => false end.


(** Alice has registered. *)
Definition alice_registered : list Event :=
  [EFetch (register_request "Alice") (register_inputs Byte.x00 0)].


(** * Properties *)

(** ** Tokens *)

Module TokenFacts.
Import Token.

Lemma length_slice0 n s :
  String.length (slice0 n s) = Nat.min n (String.length s).
Proof.
  revert s; induction n as [|n IH]; intros [|c r]; simpl; auto.
Qed.

Lemma length_strip s :
  (String.length (strip s) + count_stripped s = String.length s)%nat.
Proof.
  induction s as [|c r IH]; simpl; [reflexivity|].
  destruct (is_plus_or_slash c); simpl; lia.
Qed.

Lemma length_btoa_12 bs :
  length bs = 12%nat → String.length (btoa bs) = 16%nat.
Proof.
  intros H.
  do 13 (destruct bs as [|? bs]; [discriminate H || reflexivity|]).
  discriminate H.
Qed.

Lemma occurs_strip c s :
  is_plus_or_slash c = true → occurs c (strip s) = false.
Proof.
  intros Hc; induction s as [|d r IH]; simpl; [reflexivity|].
  destruct (is_plus_or_slash d) eqn:Hd; [exact IH|].
  simpl. rewrite IH, orb_false_r.
  destruct (Ascii.eqb_spec c d) as [->|]; [congruence|reflexivity].
Qed.

Lemma occurs_slice0 c n s :
  occurs c s = false → occurs c (slice0 n s) = false.
Proof.
  revert s; induction n as [|n IH]; intros [|d r]; simpl; auto.
  intros [H1 H2]%orb_false_iff. rewrite H1; simpl; auto.
Qed.

End TokenFacts.

(** C9, as the code has it: the token has the 16 characters of the
    base64 text less the [+] and [/] among them, so at most 16, and holds
    neither [+] nor [/]. *)
Theorem token_length_and_alphabet (randomBytes : list byte) :
  length randomBytes = 12%nat →
  let t := Token.generateToken randomBytes in
  String.length t
  = (16 - Token.count_stripped (Token.btoa randomBytes))%nat
  ∧ (String.length t ≤ 16)%nat
  ∧ Token.occurs "+" t = false
  ∧ Token.occurs "/" t = false.
Proof.
  intros H t; subst t; unfold Token.generateToken.
  pose proof (TokenFacts.length_btoa_12 _ H) as H16.
  pose proof (TokenFacts.length_strip (Token.btoa randomBytes)) as Hs.
  rewrite TokenFacts.length_slice0.
  repeat split; try lia.
  - apply TokenFacts.occurs_slice0, TokenFacts.occurs_strip; reflexivity.
  - apply TokenFacts.occurs_slice0, TokenFacts.occurs_strip; reflexivity.
Qed.

Lemma token_length_and_alphabet_witness :
  length (repeat Byte.x00 12) = 12%nat
  ∧ String.length (Token.generateToken (repeat Byte.x00 12)) = 16%nat.
Proof.
  split; [reflexivity|].
  destruct (token_length_and_alphabet (repeat Byte.x00 12) eq_refl)
    as [H _].
  exact H.
Defined.

(** C9 as stated fails: twelve bytes [0xff] encode to sixteen [/], and the
    token that is returned is empty. *)
Lemma token_not_always_16 :
  length (repeat Byte.xff 12) = 12%nat
  ∧ Token.generateToken (repeat Byte.xff 12) = ""
  ∧ String.length (Token.generateToken (repeat Byte.xff 12)) ≠ 16%nat.
Proof. repeat split; vm_compute; discriminate. Qed.

(** ** Routing *)

Lemma route_guard_never_fires method pathname h :
  fetch_route method pathname = ToHandler h →
  method_guard_passes h method = true.
Proof.
  unfold fetch_route, method_guard_passes.
  repeat match goal with
         | |- context [String.eqb ?a ?b] =>
             destruct (String.eqb_spec a b); subst; simpl
         end;
    intros H; inversion H; subst; simpl; try reflexivity;
    try apply String.eqb_refl.
Qed.

Lemma fetch_not_routed cfg fails r i s :
  fetch_route (method r) (pathname r) = NotFound404 →
  fetch cfg fails r i s = (s, Ok (text_response 404 "Not found")).
Proof. intros H; unfold fetch; rewrite H; reflexivity. Qed.

Lemma unknown_path_404 cfg fails r i s :
  method r ≠ "OPTIONS" →
  known_path (pathname r) = false →
  fetch cfg fails r i s = (s, Ok (text_response 404 "Not found")).
Proof.
  intros Hm Hp; apply fetch_not_routed.
  unfold known_path in Hp; unfold fetch_route.
  destruct (String.eqb_spec (method r) "OPTIONS"); [contradiction|].
  repeat match goal with
         | H : (_ || _)%bool = false |- _ =>
             apply orb_false_iff in H; destruct H
         end.
  repeat match goal with H : String.eqb _ _ = false |- _ => rewrite H; clear H end.
  reflexivity.
Qed.

Lemma method_mismatch_404 cfg fails r i s :
  route_accepts (pathname r) (method r) = false →
  fetch cfg fails r i s = (s, Ok (text_response 404 "Not found")).
Proof.
  unfold route_accepts; intros H; apply fetch_not_routed.
  destruct (fetch_route _ _); [discriminate|reflexivity].
Qed.

(** C10 on the code: a request whose path is routed but whose method is
    not gets the 404 of the unknown route, never the 405 of the handlers'
    own method checks. *)
Theorem wrong_method_answers_404 cfg fails i s :
  known_path "/register" = true
  ∧ route_accepts "/register" "POST" = false
  ∧ fetch cfg fails (bare_request "POST" "/register") i s
    = (s, Ok (Now {| status := 404; body := BText "Not found" |}))
  ∧ fetch cfg fails (bare_request "PUT" "/messages") i s
    = (s, Ok (Now {| status := 404; body := BText "Not found" |}))
  ∧ fetch cfg fails (bare_request "POST" "/balance") i s
    = (s, Ok (Now {| status := 404; body := BText "Not found" |})).
Proof.
  repeat split; apply method_mismatch_404; reflexivity.
Qed.

(** ** Deduplication *)

Section JsMap.
Context {V : Type}.
Implicit Types (m : list (string * V)) (k : string) (v : V).

Lemma jsmap_get_set k k' v m :
  jsmap_get k (jsmap_set k' v m)
  = if String.eqb k k' then Some v else jsmap_get k m.
Proof.
  induction m as [|[k0 v0] r IH]; simpl.
  - destruct (String.eqb k k'); reflexivity.
  - destruct (String.eqb_spec k' k0) as [->|Hne]; simpl.
    + destruct (String.eqb_spec k k0); reflexivity.
    + rewrite IH. destruct (String.eqb_spec k k0) as [->|]; [|reflexivity].
      destruct (String.eqb_spec k0 k'); [congruence|reflexivity].
Qed.

Lemma jsmap_get_None k m : jsmap_get k m = None ↔ k ∉ m.*1.
Proof.
  induction m as [|[k0 v0] r IH]; simpl.
  - split; [intros _; apply not_elem_of_nil|reflexivity].
  - rewrite not_elem_of_cons.
    destruct (String.eqb_spec k k0) as [->|Hne]; [split; [discriminate|tauto]|].
    rewrite IH; tauto.
Qed.

Lemma jsmap_get_Some_elem k v m : jsmap_get k m = Some v → (k, v) ∈ m.
Proof.
  induction m as [|[k0 v0] r IH]; simpl; [discriminate|].
  destruct (String.eqb_spec k k0) as [->|Hne].
  - intros [= ->]; apply list_elem_of_here.
  - intros H; apply list_elem_of_further; auto.
Qed.

Lemma jsmap_get_elem k v m :
  NoDup m.*1 → (k, v) ∈ m → jsmap_get k m = Some v.
Proof.
  induction m as [|[k0 v0] r IH]; simpl.
  - intros _ H; inversion H.
  - intros [Hk0 Hr]%NoDup_cons [[= -> ->]|H]%elem_of_cons.
    + rewrite String.eqb_refl; reflexivity.
    + destruct (String.eqb_spec k k0) as [->|Hne]; [|auto].
      exfalso; apply Hk0. apply list_elem_of_fmap; exists (k0, v); auto.
Qed.

Lemma jsmap_set_keys k v m :
  (jsmap_set k v m).*1 = if decide (k ∈ m.*1) then m.*1 else m.*1 ++ [k].
Proof.
  induction m as [|[k0 v0] r IH].
  - destruct (decide (k ∈ ([] : list (string * V)).*1)) as [H|H];
      [inversion H|reflexivity].
  - cbn [jsmap_set]. rewrite fmap_cons. cbn [fst].
    destruct (String.eqb_spec k k0) as [->|Hne].
    + rewrite decide_True; [reflexivity|apply list_elem_of_here].
    + rewrite fmap_cons, IH. cbn [fst].
      destruct (decide (k ∈ r.*1)) as [Hin|Hin].
      * rewrite decide_True; [reflexivity|apply list_elem_of_further, Hin].
      * rewrite decide_False; [reflexivity|].
        rewrite not_elem_of_cons; auto.
Qed.

Lemma jsmap_set_NoDup k v m : NoDup m.*1 → NoDup (jsmap_set k v m).*1.
Proof.
  intros H; rewrite jsmap_set_keys.
  destruct (decide (k ∈ m.*1)); [assumption|].
  apply NoDup_app; repeat split; [assumption| |apply NoDup_singleton].
  intros x Hx ->%list_elem_of_singleton; contradiction.
Qed.

Lemma jsmap_set_length k v m :
  length (jsmap_set k v m)
  = if decide (k ∈ m.*1) then length m else S (length m).
Proof.
  pose proof (jsmap_set_keys k v m) as H.
  apply (f_equal length) in H. rewrite length_fmap in H. rewrite H.
  destruct (decide _); rewrite ?length_app, ?length_fmap; simpl; lia.
Qed.

End JsMap.

Lemma uniqueBidsMap_snoc l x :
  uniqueBidsMap (l ++ [x]) = dedup_step (uniqueBidsMap l) x.
Proof. unfold uniqueBidsMap; rewrite fold_left_app; reflexivity. Qed.

Lemma dedup_step_get t m b :
  jsmap_get t (dedup_step m b)
  = if String.eqb t (token b) then
      match jsmap_get t m with
      | None => Some b
      | Some e => if bid b >? bid e then Some b else Some e
      end
    else jsmap_get t m.
Proof.
  unfold dedup_step.
  destruct (String.eqb_spec t (token b)) as [->|Hne].
  - destruct (jsmap_get (token b) m) as [e|] eqn:He.
    + destruct (bid b >? bid e); [|exact He].
      rewrite jsmap_get_set, String.eqb_refl; reflexivity.
    + rewrite jsmap_get_set, String.eqb_refl; reflexivity.
  - assert (String.eqb t (token b) = false) as Hf
      by (apply String.eqb_neq; exact Hne).
    destruct (jsmap_get (token b) m) as [e|];
      [destruct (bid b >? bid e)|]; rewrite ?jsmap_get_set, ?Hf; reflexivity.
Qed.

Lemma dedup_kept l t : kept_spec l t (jsmap_get t (uniqueBidsMap l)).
Proof.
  induction l as [|x l IH] using rev_ind.
  - intros b Hb; inversion Hb.
  - rewrite uniqueBidsMap_snoc, dedup_step_get.
    destruct (String.eqb_spec t (token x)) as [->|Hne].
    + destruct (jsmap_get (token x) (uniqueBidsMap l)) as [e|].
      * destruct IH as (i & Hi & Ht & Hmax).
        pose proof (lookup_lt_Some _ _ _ Hi) as Hlt.
        destruct (Z.gtb_spec (bid x) (bid e)) as [Hgt|Hle].
        -- exists (length l). split; [|split; [reflexivity|]].
           { rewrite lookup_app_r, Nat.sub_diag by lia; reflexivity. }
           intros j b' Hj Hb'.
           apply lookup_app_Some in Hj as [Hj|[Hge Hj]].
           ++ destruct (Hmax _ _ Hj Hb'); lia.
           ++ apply list_lookup_singleton_Some in Hj as [_ <-]. lia.
        -- exists i. split; [|split; [exact Ht|]].
           { rewrite lookup_app_l by lia; exact Hi. }
           intros j b' Hj Hb'.
           apply lookup_app_Some in Hj as [Hj|[Hge Hj]].
           ++ apply (Hmax _ _ Hj Hb').
           ++ apply list_lookup_singleton_Some in Hj as [_ <-]. lia.
      * exists (length l). split; [|split; [reflexivity|]].
        { rewrite lookup_app_r, Nat.sub_diag by lia; reflexivity. }
        intros j b' Hj Hb'.
        apply lookup_app_Some in Hj as [Hj|[Hge Hj]].
        -- exfalso. apply (IH b'); [eapply list_elem_of_lookup_2, Hj|exact Hb'].
        -- apply list_lookup_singleton_Some in Hj as [_ <-]. lia.
    + destruct (jsmap_get t (uniqueBidsMap l)) as [e|].
      * destruct IH as (i & Hi & Ht & Hmax).
        pose proof (lookup_lt_Some _ _ _ Hi) as Hlt.
        exists i. split; [|split; [exact Ht|]].
        { rewrite lookup_app_l by lia; exact Hi. }
        intros j b' Hj Hb'.
        apply lookup_app_Some in Hj as [Hj|[Hge Hj]].
        -- apply (Hmax _ _ Hj Hb').
        -- apply list_lookup_singleton_Some in Hj as [_ <-]. congruence.
      * intros b [Hb| ->%list_elem_of_singleton]%elem_of_app; [auto|congruence].
Qed.

Lemma uniqueBidsMap_NoDup l : NoDup (uniqueBidsMap l).*1.
Proof.
  induction l as [|x l IH] using rev_ind; [apply NoDup_nil_2|].
  rewrite uniqueBidsMap_snoc; unfold dedup_step.
  destruct (jsmap_get _ _) as [e|];
    [destruct (bid x >? bid e)|]; auto using jsmap_set_NoDup.
Qed.

Lemma dedup_kept_of_bidder (batch : list Bid) (j : nat) (b' : Bid) :
  batch !! j = Some b' →
  ∃ i b,
    jsmap_get (token b') (uniqueBidsMap batch) = Some b
    ∧ batch !! i = Some b
    ∧ token b = token b'
    ∧ ∀ k c, batch !! k = Some c → token c = token b' →
             bid c ≤ bid b ∧ ((k < i)%nat → bid c < bid b).
Proof.
  intros Hj.
  pose proof (dedup_kept batch (token b')) as H.
  destruct (jsmap_get (token b') (uniqueBidsMap batch)) as [b|].
  - destruct H as (i & Hi & Ht & Hmax). exists i, b; auto.
  - exfalso. apply (H b'); [eapply list_elem_of_lookup_2, Hj|reflexivity].
Qed.

(** C3, as the code has it: for every token that bid, the deduplication
    keeps one of that token's largest bids, and among equal largest bids
    the earliest admission (the comparison is a strict [>]). *)
Theorem dedup_keeps_earliest_largest (batch : list Bid) (j : nat) (b' : Bid) :
  batch !! j = Some b' →
  ∃ i b,
    jsmap_get (token b') (uniqueBidsMap batch) = Some b
    ∧ b ∈ uniqueBids batch
    ∧ batch !! i = Some b
    ∧ token b = token b'
    ∧ ∀ k c, batch !! k = Some c → token c = token b' →
             bid c ≤ bid b ∧ ((k < i)%nat → bid c < bid b).
Proof.
  intros Hj.
  destruct (dedup_kept_of_bidder batch j b' Hj) as (i & b & Hg & Hi & Ht & Hmax).
  exists i, b. repeat split; try assumption; try apply (Hmax _ _ H H0).
  unfold uniqueBids. apply list_elem_of_fmap. exists (token b', b).
  split; [reflexivity|apply jsmap_get_Some_elem, Hg].
Qed.

Lemma dedup_keeps_earliest_largest_witness :
  ∃ i b,
    jsmap_get (token bid_a2) (uniqueBidsMap [bid_a1; bid_a2]) = Some b
    ∧ b ∈ uniqueBids [bid_a1; bid_a2]
    ∧ [bid_a1; bid_a2] !! i = Some b
    ∧ token b = token bid_a2
    ∧ ∀ k c, [bid_a1; bid_a2] !! k = Some c → token c = token bid_a2 →
             bid c ≤ bid b ∧ ((k < i)%nat → bid c < bid b).
Proof.
  apply (dedup_keeps_earliest_largest [bid_a1; bid_a2] 1 bid_a2).
  reflexivity.
Defined.

(** C3 as stated fails: of two equal bids of one token the deduplication
    keeps the first, not the latest. *)
Lemma dedup_tie_keeps_first :
  uniqueBids [bid_a1; bid_a2] = [bid_a1]
  ∧ uniqueBids [bid_a1; bid_a2] ≠ [bid_a2].
Proof. split; [reflexivity|discriminate]. Qed.

(** ** The sort *)

Lemma insert_desc_perm x l : insert_desc x l ≡ₚ x :: l.
Proof.
  induction l as [|y r IH]; simpl; [reflexivity|].
  destruct (bid y <? bid x); [reflexivity|].
  rewrite IH. apply Permutation_swap.
Qed.

Lemma sort_desc_perm l : sort_desc l ≡ₚ l.
Proof.
  induction l as [|x l IH]; simpl; [reflexivity|].
  unfold sort_desc in *; simpl.
  rewrite insert_desc_perm, IH; reflexivity.
Qed.

Lemma insert_desc_sorted x l :
  StronglySorted desc l → StronglySorted desc (insert_desc x l).
Proof.
  induction l as [|y r IH]; simpl; intros Hs.
  - repeat constructor.
  - apply StronglySorted_inv in Hs as [Hr Hy].
    destruct (Z.ltb_spec (bid y) (bid x)) as [Hlt|Hge].
    + constructor; [constructor; assumption|].
      constructor; [unfold desc; lia|].
      eapply Forall_impl; [exact Hy|]. unfold desc; intros; lia.
    + constructor; [auto|].
      rewrite insert_desc_perm. constructor; [exact Hge|exact Hy].
Qed.

Lemma sort_desc_sorted l : StronglySorted desc (sort_desc l).
Proof.
  induction l as [|x l IH]; [constructor|].
  apply insert_desc_sorted, IH.
Qed.

Lemma sort_desc_elem l b : b ∈ sort_desc l ↔ b ∈ l.
Proof. rewrite (sort_desc_perm l); reflexivity. Qed.

Lemma sort_desc_nil l : sort_desc l = [] → l = [].
Proof.
  intros H. apply Permutation_nil_r. rewrite <- H. symmetry. apply sort_desc_perm.
Qed.

(** ** The deduplicated bids *)

Lemma uniqueBidsMap_entry l k b : (k, b) ∈ uniqueBidsMap l → token b = k.
Proof.
  intros H.
  apply jsmap_get_elem in H; [|apply uniqueBidsMap_NoDup].
  pose proof (dedup_kept l k) as Hk. rewrite H in Hk.
  destruct Hk as (_ & _ & Ht & _); exact Ht.
Qed.

Lemma uniqueBids_tokens l : token <$> uniqueBids l = (uniqueBidsMap l).*1.
Proof.
  unfold uniqueBids.
  pose proof (uniqueBidsMap_entry l) as H.
  induction (uniqueBidsMap l) as [|[k b] r IH]; [reflexivity|].
  rewrite !fmap_cons; simpl. f_equal.
  - apply H, list_elem_of_here.
  - apply IH. intros k' b' Hin. apply H, list_elem_of_further, Hin.
Qed.

Lemma uniqueBids_NoDup l : NoDup (token <$> uniqueBids l).
Proof. rewrite uniqueBids_tokens; apply uniqueBidsMap_NoDup. Qed.

Lemma uniqueBids_token_elem l t :
  t ∈ token <$> uniqueBids l ↔ t ∈ token <$> l.
Proof.
  rewrite uniqueBids_tokens.
  pose proof (dedup_kept l t) as H.
  destruct (jsmap_get t (uniqueBidsMap l)) as [b|] eqn:Hg.
  - destruct H as (i & Hi & Ht & _). split; intros _.
    + apply list_elem_of_fmap. exists b; split; [auto|].
      eapply list_elem_of_lookup_2, Hi.
    + apply jsmap_get_Some_elem in Hg.
      apply list_elem_of_fmap. exists (t, b); auto.
  - apply jsmap_get_None in Hg. split; [contradiction|].
    intros (b & -> & Hb)%list_elem_of_fmap. exfalso; apply (H b Hb); reflexivity.
Qed.

Lemma uniqueBids_elem l b : b ∈ uniqueBids l → b ∈ l.
Proof.
  unfold uniqueBids. intros ([k b'] & -> & Hin)%list_elem_of_fmap. simpl.
  pose proof (uniqueBidsMap_entry _ _ _ Hin) as Ht.
  apply jsmap_get_elem in Hin; [|apply uniqueBidsMap_NoDup].
  pose proof (dedup_kept l k) as Hk. rewrite Hin in Hk.
  destruct Hk as (i & Hi & _). eapply list_elem_of_lookup_2, Hi.
Qed.

(** The bid that is kept for a token that bid is at least each of its bids. *)
Lemma uniqueBids_dominates l b :
  b ∈ l → ∃ u, u ∈ uniqueBids l ∧ token u = token b ∧ bid b ≤ bid u.
Proof.
  intros (j & Hj)%list_elem_of_lookup_1.
  destruct (dedup_kept_of_bidder l j b Hj) as (i & u & Hg & Hi & Ht & Hmax).
  exists u. split; [|split; [exact Ht|apply (Hmax j b Hj eq_refl)]].
  unfold uniqueBids. apply list_elem_of_fmap. exists (token b, u).
  split; [reflexivity|apply jsmap_get_Some_elem, Hg].
Qed.

Lemma uniqueBids_nonempty l : l ≠ [] → uniqueBids l ≠ [].
Proof.
  destruct l as [|b l]; [congruence|]. intros _ H.
  destruct (uniqueBids_dominates (b :: l) b) as (u & Hu & _);
    [apply list_elem_of_here|].
  rewrite H in Hu; inversion Hu.
Qed.

(** The number of unique bidders is the number of distinct tokens. *)
Lemma uniqueBids_length l :
  length (uniqueBids l) = size (list_to_set (token <$> l) : gset string).
Proof.
  rewrite <- (length_fmap token (uniqueBids l)).
  rewrite <- (size_list_to_set (C := gset string)) by apply uniqueBids_NoDup.
  f_equal. apply set_eq; intros t.
  rewrite !elem_of_list_to_set. apply uniqueBids_token_elem.
Qed.

(** ** Storage *)

Lemma balance_key_inj t1 t2 : balance_key t1 = balance_key t2 → t1 = t2.
Proof. unfold balance_key; simpl; intros [= H]; exact H. Qed.

Lemma name_key_inj t1 t2 : name_key t1 = name_key t2 → t1 = t2.
Proof. unfold name_key; simpl; intros [= H]; exact H. Qed.

Lemma balance_key_not_name t1 t2 : balance_key t1 ≠ name_key t2.
Proof. unfold balance_key, name_key; simpl; discriminate. Qed.

Lemma balance_key_not_message t i : balance_key t ≠ message_key i.
Proof. unfold balance_key, message_key; simpl; discriminate. Qed.

Lemma get_many_cons (st : gmap string jsval) k0 r :
  get_many st (k0 :: r)
  = match st !! k0 with
    | Some v => <[k0 := v]> (get_many st r)
    | None => get_many st r
    end.
Proof. reflexivity. Qed.

Lemma get_many_lookup (st : gmap string jsval) keys k :
  get_many st keys !! k = if decide (k ∈ keys) then st !! k else None.
Proof.
  induction keys as [|k0 r IH].
  - unfold get_many; cbn [foldr]. rewrite lookup_empty.
    destruct (decide (k ∈ [])) as [H|]; [inversion H|reflexivity].
  - rewrite get_many_cons.
    destruct (decide (k = k0)) as [->|Hne].
    + rewrite decide_True by apply list_elem_of_here.
      destruct (st !! k0) as [v|] eqn:Hv.
      * rewrite lookup_insert_eq; reflexivity.
      * rewrite IH. destruct (decide _); congruence.
    + assert (match st !! k0 with
              | Some v => <[k0 := v]> (get_many st r)
              | None => get_many st r
              end !! k = get_many st r !! k) as ->.
      { destruct (st !! k0); [rewrite lookup_insert_ne by congruence|];
          reflexivity. }
      rewrite IH. destruct (decide (k ∈ r)) as [Hin|Hin].
      * rewrite decide_True by (apply list_elem_of_further, Hin); reflexivity.
      * rewrite decide_False; [reflexivity|].
        rewrite not_elem_of_cons; auto.
Qed.

Lemma map_get_get_many (st : gmap string jsval) keys k :
  k ∈ keys → map_get (get_many st keys) k = map_get st k.
Proof.
  intros H; unfold map_get. rewrite get_many_lookup, decide_True by exact H.
  reflexivity.
Qed.

Lemma put_many_notin entries (st : gmap string jsval) k :
  k ∉ entries.*1 → put_many entries st !! k = st !! k.
Proof.
  revert st; induction entries as [|[k0 v0] r IH]; intros st; [reflexivity|].
  rewrite fmap_cons, not_elem_of_cons; simpl. intros [Hne Hr].
  unfold put_many in *; simpl. rewrite IH by exact Hr.
  apply lookup_insert_ne; congruence.
Qed.

Lemma put_many_in entries (st : gmap string jsval) k v :
  NoDup entries.*1 → (k, v) ∈ entries → put_many entries st !! k = Some v.
Proof.
  revert st; induction entries as [|[k0 v0] r IH]; intros st.
  - intros _ H; inversion H.
  - rewrite fmap_cons; simpl.
    intros [Hk0 Hr]%NoDup_cons [[= -> ->]|Hin]%elem_of_cons.
    + change (put_many r (<[k0 := v0]> st) !! k0 = Some v0).
      rewrite put_many_notin by exact Hk0. apply lookup_insert_eq.
    + change (put_many r (<[k0 := v0]> st) !! k = Some v). auto.
Qed.

Lemma balance_entries_keys bal :
  (balance_entries bal).*1 = balance_key <$> bal.*1.
Proof.
  unfold balance_entries. rewrite <- !list_fmap_compose. reflexivity.
Qed.

Lemma balance_entries_NoDup bal :
  NoDup bal.*1 → NoDup (balance_entries bal).*1.
Proof.
  intros H. rewrite balance_entries_keys.
  apply NoDup_fmap_2_strong; [|exact H].
  intros x y _ _; apply balance_key_inj.
Qed.

Lemma put_balances_token bal (st : gmap string jsval) t v :
  NoDup bal.*1 → jsmap_get t bal = Some v →
  put_many (balance_entries bal) st !! balance_key t = Some v.
Proof.
  intros Hnd Hg. apply put_many_in; [apply balance_entries_NoDup, Hnd|].
  unfold balance_entries. apply list_elem_of_fmap.
  exists (t, v); split; [reflexivity|apply jsmap_get_Some_elem, Hg].
Qed.

Lemma put_balances_other bal (st : gmap string jsval) k :
  (∀ t, t ∈ bal.*1 → k ≠ balance_key t) →
  put_many (balance_entries bal) st !! k = st !! k.
Proof.
  intros H. apply put_many_notin. rewrite balance_entries_keys.
  intros (t & -> & Ht)%list_elem_of_fmap. apply (H t Ht); reflexivity.
Qed.

(** ** The in-memory [balances] map of a settlement *)

Lemma load_map_acc key_of tokens obj acc t :
  jsmap_get t (fold_left (λ a x, jsmap_set x (map_get obj (key_of x)) a)
                 tokens acc)
  = if decide (t ∈ tokens) then Some (map_get obj (key_of t))
    else jsmap_get t acc.
Proof.
  revert acc; induction tokens as [|x r IH]; intros acc.
  - destruct (decide (t ∈ [])) as [H|]; [inversion H|reflexivity].
  - cbn [fold_left]. rewrite IH, jsmap_get_set.
    destruct (decide (t ∈ r)) as [Hin|Hin].
    + rewrite decide_True by (apply list_elem_of_further, Hin); reflexivity.
    + destruct (String.eqb_spec t x) as [->|Hne].
      * rewrite decide_True by apply list_elem_of_here; reflexivity.
      * rewrite decide_False; [reflexivity|]. rewrite not_elem_of_cons; auto.
Qed.

Lemma load_map_get key_of tokens obj t :
  jsmap_get t (load_map key_of tokens obj)
  = if decide (t ∈ tokens) then Some (map_get obj (key_of t)) else None.
Proof. unfold load_map; rewrite load_map_acc; reflexivity. Qed.

Lemma load_map_NoDup key_of tokens obj :
  NoDup (load_map key_of tokens obj).*1.
Proof.
  unfold load_map.
  assert (NoDup ([] : list (string * jsval)).*1) as H by apply NoDup_nil_2.
  revert H. generalize ([] : list (string * jsval)).
  induction tokens as [|x r IH]; intros acc H; simpl; [exact H|].
  apply IH, jsmap_set_NoDup, H.
Qed.

Section Settlement.

Variable cfg : Config.

Lemma accumulate_fold_get ht sorted bal t :
  NoDup (token <$> sorted) →
  jsmap_get t (fold_left (accumulate_step cfg ht) sorted bal)
  = if String.eqb t ht then jsmap_get t bal
    else if decide (t ∈ token <$> sorted)
         then Some (JNum (reward cfg (jsmap_get_val t bal)))
         else jsmap_get t bal.
Proof.
  revert bal; induction sorted as [|x r IH]; intros bal Hnd.
  - cbn [fold_left]. destruct (String.eqb t ht); [reflexivity|].
    destruct (decide (t ∈ token <$> [])) as [H|]; [inversion H|reflexivity].
  - rewrite fmap_cons in Hnd. apply NoDup_cons in Hnd as [Hx Hr].
    cbn [fold_left]. rewrite IH by exact Hr. rewrite fmap_cons.
    destruct (String.eqb_spec t ht) as [Heq|Hne]; [subst t|].
    + unfold accumulate_step.
      destruct (String.eqb_spec (token x) ht) as [Hx'|Hx']; [reflexivity|].
      rewrite jsmap_get_set.
      destruct (String.eqb_spec ht (token x)); [congruence|reflexivity].
    + unfold accumulate_step.
      destruct (String.eqb_spec (token x) ht) as [Hx'|Hx'].
      * destruct (decide (t ∈ token <$> r)) as [Hin|Hin].
        -- rewrite decide_True by (apply list_elem_of_further, Hin); reflexivity.
        -- rewrite decide_False; [reflexivity|].
           rewrite not_elem_of_cons; split; [congruence|exact Hin].
      * unfold jsmap_get_val at 1. rewrite !jsmap_get_set.
        destruct (String.eqb_spec t (token x)) as [Heq|Hne']; [subst t|].
        -- rewrite decide_False by exact Hx.
           rewrite decide_True by apply list_elem_of_here. reflexivity.
        -- destruct (decide (t ∈ token <$> r)) as [Hin|Hin].
           ++ rewrite decide_True by (apply list_elem_of_further, Hin).
              reflexivity.
           ++ rewrite decide_False; [reflexivity|].
              rewrite not_elem_of_cons; split; assumption.
Qed.

Lemma accumulate_fold_NoDup ht sorted bal :
  NoDup bal.*1 → NoDup (fold_left (accumulate_step cfg ht) sorted bal).*1.
Proof.
  revert bal; induction sorted as [|x r IH]; intros bal H; [exact H|].
  cbn [fold_left]. apply IH. unfold accumulate_step.
  destruct (String.eqb _ _); [exact H|apply jsmap_set_NoDup, H].
Qed.

Lemma settle_balances_NoDup loaded sorted ht second :
  NoDup loaded.*1 → NoDup (settle_balances cfg loaded sorted ht second).*1.
Proof.
  intros H. unfold settle_balances.
  apply accumulate_fold_NoDup, jsmap_set_NoDup, H.
Qed.

Lemma settle_balances_get loaded sorted ht second t :
  NoDup (token <$> sorted) →
  jsmap_get t (settle_balances cfg loaded sorted ht second)
  = if String.eqb t ht
    then Some (JNum (deduct (jsmap_get_val ht loaded) second))
    else if decide (t ∈ token <$> sorted)
         then Some (JNum (reward cfg (jsmap_get_val t loaded)))
         else jsmap_get t loaded.
Proof.
  intros Hnd. unfold settle_balances.
  rewrite accumulate_fold_get by exact Hnd.
  unfold jsmap_get_val. rewrite !jsmap_get_set.
  destruct (String.eqb_spec t ht) as [Heq|Hne]; [subst t|]; reflexivity.
Qed.

Lemma processBatch_run fails via i s hb rest :
  processing s = false →
  (∀ l, l ∈ settlement_sites → fails l = false) →
  sort_desc (uniqueBids (batch s)) = hb :: rest →
  processBatch cfg fails via i s = (settle cfg via i hb s, Ok tt).
Proof.
  intros Hp Hf Hs.
  assert (fails L269 = false) as F1 by (apply Hf; set_solver).
  assert (fails L288 = false) as F2 by (apply Hf; set_solver).
  assert (fails L289 = false) as F3 by (apply Hf; set_solver).
  assert (fails L332 = false) as F4 by (apply Hf; set_solver).
  assert (fails L344 = false) as F5 by (apply Hf; set_solver).
  unfold processBatch, bind, get_state, modify, ret, storage_deleteAlarm,
    storage_get_keys, storage_put_object, storage_put, storage_call.
  rewrite Hp, F1, F2, F3. cbn [batch set_alarm_slot set_processing storage].
  rewrite Hs, F4, F5.
  unfold settle, settled_balances, loaded_names, round_stats.
  cbn [batch set_alarm_slot set_processing storage set_storage
       pendingRequests resolve_all].
  rewrite Hs. reflexivity.
Qed.

End Settlement.

(** ** A settlement whose storage call throws *)


Lemma message_key_prefix i : String.prefix "message:" (message_key i) = true.
Proof.
  unfold message_key; simpl.
  destruct (_ +:+ _); reflexivity.
Qed.

(** Once the flag is left set, [processBatch] returns at its first line. *)
Lemma processBatch_wedged cfg fails via i s :
  processing s = true → processBatch cfg fails via i s = (s, Ok tt).
Proof.
  intros H. unfold processBatch, bind, get_state. rewrite H. reflexivity.
Qed.




(** ** The storage after a settlement *)

Section SettledStorage.

Variable cfg : Config.

Lemma sorted_tokens_NoDup l : NoDup (token <$> sort_desc (uniqueBids l)).
Proof.
  rewrite (sort_desc_perm (uniqueBids l)). apply uniqueBids_NoDup.
Qed.

Lemma sorted_token_elem l t :
  t ∈ token <$> sort_desc (uniqueBids l) ↔ t ∈ token <$> l.
Proof.
  rewrite (sort_desc_perm (uniqueBids l)). apply uniqueBids_token_elem.
Qed.

Lemma settled_balances_NoDup st l : NoDup (settled_balances cfg st l).*1.
Proof.
  unfold settled_balances.
  destruct (sort_desc (uniqueBids l));
    [|apply settle_balances_NoDup]; apply load_map_NoDup.
Qed.

Lemma settled_balances_get st l hb rest t :
  sort_desc (uniqueBids l) = hb :: rest →
  jsmap_get t (settled_balances cfg st l)
  = if decide (t ∈ token <$> l)
    then Some (JNum (new_balance cfg st hb (or_zero (bid <$> head rest)) t))
    else None.
Proof.
  intros Hs. unfold settled_balances. rewrite Hs.
  pose proof (sorted_tokens_NoDup l) as Hnd. rewrite Hs in Hnd.
  pose proof (sorted_token_elem l) as Hel. rewrite Hs in Hel.
  assert (∀ x, x ∈ token <$> l →
     jsmap_get_val x
       (load_map balance_key (token <$> uniqueBids l)
          (get_many st (balance_key <$> (token <$> uniqueBids l))))
     = map_get st (balance_key x)) as Hload.
  { intros x Hx. unfold jsmap_get_val. rewrite load_map_get.
    apply uniqueBids_token_elem in Hx.
    rewrite decide_True by exact Hx. simpl.
    apply map_get_get_many, list_elem_of_fmap_2, Hx. }
  rewrite settle_balances_get by exact Hnd. unfold new_balance.
  assert (token hb ∈ token <$> l) as Hhb
    by (apply Hel; rewrite fmap_cons; apply list_elem_of_here).
  destruct (String.eqb_spec t (token hb)) as [Heq|Hne].
  - subst t. rewrite decide_True by exact Hhb. rewrite Hload by exact Hhb.
    reflexivity.
  - destruct (decide (t ∈ token <$> l)) as [Hin|Hin].
    + rewrite decide_True by (apply Hel, Hin). rewrite Hload by exact Hin.
      reflexivity.
    + rewrite decide_False by (rewrite Hel; exact Hin).
      rewrite load_map_get, decide_False; [reflexivity|].
      rewrite uniqueBids_token_elem; exact Hin.
Qed.

Lemma settled_balances_keys st l hb rest t :
  sort_desc (uniqueBids l) = hb :: rest →
  t ∈ (settled_balances cfg st l).*1 → t ∈ token <$> l.
Proof.
  intros Hs Hin.
  destruct (decide (t ∈ token <$> l)) as [|Hn]; [assumption|].
  exfalso. revert Hin. apply jsmap_get_None.
  rewrite (settled_balances_get _ _ _ _ _ Hs), decide_False by exact Hn.
  reflexivity.
Qed.

(** The balance keys of the bidders hold the computed balances. *)
Lemma settle_balance_bidder via i s hb rest t :
  sort_desc (uniqueBids (batch s)) = hb :: rest →
  t ∈ token <$> batch s →
  storage (settle cfg via i hb s) !! balance_key t
  = Some (JNum (new_balance cfg (storage s) hb (or_zero (bid <$> head rest)) t)).
Proof.
  intros Hs Hin. unfold settle.
  cbn [storage reset_state resolve_all set_storage set_alarm_slot
       set_processing].
  rewrite lookup_insert_ne
    by (intros H; symmetry in H; revert H; apply balance_key_not_message).
  apply put_balances_token; [apply settled_balances_NoDup|].
  rewrite (settled_balances_get _ _ _ _ _ Hs), decide_True by exact Hin.
  reflexivity.
Qed.

(** Every key but the bidders' balance keys and the new message key is
    as it was. *)
Lemma settle_frame via i s hb rest k :
  sort_desc (uniqueBids (batch s)) = hb :: rest →
  (∀ t, t ∈ token <$> batch s → k ≠ balance_key t) →
  k ≠ message_key i →
  storage (settle cfg via i hb s) !! k = storage s !! k.
Proof.
  intros Hs Hk Hm. unfold settle.
  cbn [storage reset_state resolve_all set_storage set_alarm_slot
       set_processing].
  rewrite lookup_insert_ne by congruence.
  apply put_balances_other. intros t Ht.
  apply Hk. eapply settled_balances_keys; eauto.
Qed.


End SettledStorage.

(** ** The transitions of the scheduler when no storage call throws *)

Section Transitions.

Variable cfg : Config.

Lemma handleSendMessage_outcome fails r i s :
  send_outcome cfg fails i s (handleSendMessage cfg fails r i s).
Proof.
  unfold handleSendMessage.
  destruct (negb _); [constructor|].
  destruct (falsy (x_client_token r)); [constructor|].
  unfold bind at 1, parseRequestBody.
  destruct (json r) as [b|]; [|constructor]. cbn [ret].
  destruct (falsy (j_message b) || bid_is_null (j_bid b))%bool;
    [constructor|].
  destruct (j_bid b) as [| |amount]; [constructor|constructor|].
  destruct (amount <=? 0) eqn:Hpos; [constructor|].
  unfold bind at 1, storage_get, storage_call.
  destruct (fails L235); [constructor|].
  set (tok := default "" (x_client_token r)).
  set (msg := default "" (j_message b)).
  set (nb := {| token := tok; message := msg; bid := amount |}).
  destruct (is_nullish (map_get (storage s) (balance_key tok))
            || num_lt (to_number (map_get (storage s) (balance_key tok)))
                 (Num amount))%bool eqn:Hbal; [constructor|].
  assert (passes_checks s nb) as Hpass by (split; assumption).
  unfold bind at 1, modify at 1. unfold bind at 1, get_state at 1.
  assert (∀ (k : M Reply),
    bind (if (length (batch (push_bid nb (now i) s)) =? 1)%nat
          then storage_setAlarm (now i + timeout cfg) else ret tt)
      (λ _, k) (push_bid nb (now i) s) = k (enqueue cfg i nb s)) as Harm.
  { intros k. unfold enqueue, arm, bind, storage_setAlarm, modify, ret.
    destruct (length (batch (push_bid nb (now i) s)) =? 1)%nat; reflexivity. }
  rewrite Harm.
  assert (batch (push_bid nb (now i) s) = batch (enqueue cfg i nb s)) as Hb.
  { unfold enqueue, arm. destruct (_ =? _)%nat; reflexivity. }
  rewrite Hb. fold (at_threshold cfg (enqueue cfg i nb s)).
  destruct (at_threshold cfg (enqueue cfg i nb s)) eqn:Hth.
  - apply (send_settles cfg fails i s nb Hpass Hth).
  - apply (send_parks cfg fails i s nb Hpass Hth).
Qed.

Lemma sorted_cons_of_nonempty l :
  l ≠ [] → ∃ hb rest, sort_desc (uniqueBids l) = hb :: rest.
Proof.
  intros H. destruct (sort_desc (uniqueBids l)) as [|hb rest] eqn:Hs; [|eauto].
  apply sort_desc_nil, uniqueBids_nonempty in Hs; [contradiction|exact H].
Qed.

Lemma batch_enqueue i b s : batch (enqueue cfg i b s) = batch s ++ [b].
Proof. unfold enqueue, arm. destruct (_ =? _)%nat; reflexivity. Qed.

Lemma processing_enqueue i b s : processing (enqueue cfg i b s) = processing s.
Proof. unfold enqueue, arm. destruct (_ =? _)%nat; reflexivity. Qed.

Lemma all_sites_ok l : l ∈ settlement_sites → no_faults l = false.
Proof. reflexivity. Qed.

Lemma settle_ignores_alarm via i hb a s :
  settle cfg via i hb (set_alarm_slot a s) = settle cfg via i hb s.
Proof. reflexivity. Qed.

Lemma step_transition e s :
  processing s = false → enabled e s →
  transition cfg s e (step cfg no_faults e s).
Proof.
  intros Hp Hen. destruct e as [r i|i]; cbn [step].
  - unfold fetch.
    set (h := match fetch_route (method r) (pathname r) with
              | ToHandler HOptions => _ | _ => _ end).
    assert (transition cfg s (EFetch r i) (h s).1) as Ht.
    { subst h. destruct (fetch_route _ _) as [[]|] eqn:Hroute;
        try apply t_none.
      - (* register *)
        unfold handleRegister. destruct (negb _); [apply t_none|].
        unfold bind at 1, parseRequestBody.
        destruct (json r) as [b|]; [|apply t_none]. cbn [ret].
        destruct (falsy (j_name b)); [apply t_none|]. apply t_register.
      - (* send *)
        destruct (handleSendMessage_outcome no_faults r i s)
          as [res|b Hb Hth|b Hb Hth]; [apply t_none|apply t_park; auto|].
        destruct (sorted_cons_of_nonempty (batch s ++ [b])) as (hb & rest & Hs).
        { destruct (batch s); discriminate. }
        unfold bind.
        rewrite (processBatch_run cfg no_faults ViaThreshold i
                   (enqueue cfg i b s) hb rest); cbn [fst ret].
        + eapply t_threshold; eauto.
        + rewrite processing_enqueue; exact Hp.
        + apply all_sites_ok.
        + rewrite batch_enqueue; exact Hs.
      - (* replay *)
        unfold handleReplayMessages. destruct (negb _); apply t_none.
      - (* balance *)
        unfold handleGetBalance. destruct (negb _); [apply t_none|].
        destruct (falsy _); [apply t_none|].
        unfold bind, storage_get, storage_call, no_faults.
        destruct (is_nullish _); apply t_none.
      - (* clients *)
        unfold handleListClients. destruct (negb _); [apply t_none|].
        destruct (negb _); apply t_none.
      - (* delete *)
        unfold handleDelete. destruct (negb _); [apply t_none|].
        destruct (negb _); [apply t_none|]. apply t_wipe, Hroute. }
    destruct (h s) as [s' [a|err]]; exact Ht.
  - destruct Hen as (t & Ht & Hle).
    unfold alarm, bind, get_state. cbn [batch set_alarm_slot].
    destruct (batch s) as [|b0 l] eqn:Hb.
    + cbn. apply t_alarm_idle, Hb.
    + destruct (sorted_cons_of_nonempty (b0 :: l)) as (hb & rest & Hs);
        [discriminate|].
      cbn [length Nat.ltb Nat.leb].
      rewrite (processBatch_run cfg no_faults ViaAlarm i
                 (set_alarm_slot None s) hb rest);
        [|exact Hp|apply all_sites_ok|cbn [batch set_alarm_slot]; rewrite Hb; exact Hs].
      cbn [fst]. rewrite settle_ignores_alarm.
      eapply t_alarm; eauto. rewrite Hb; exact Hs.
Qed.

End Transitions.

(** ** Invariants of the failure-free scheduler *)

Section Invariants.

Variable cfg : Config.

Lemma passes_checks_balance s b :
  Sound cfg s → passes_checks s b →
  0 < bid b
  ∧ ∃ z, storage s !! balance_key (token b) = Some (JNum (Num z))
         ∧ bid b ≤ z.
Proof.
  intros HS [Hpos Hbal]. apply Z.leb_gt in Hpos. split; [exact Hpos|].
  apply orb_false_iff in Hbal as [Hnull Hlt].
  unfold map_get in *.
  destruct (storage s !! balance_key (token b)) as [v|] eqn:Hv;
    [|discriminate Hnull].
  destruct (inv_numeric cfg s HS _ _ Hv) as [z ->].
  exists z. split; [reflexivity|]. simpl in Hlt. apply Z.ltb_ge in Hlt. exact Hlt.
Qed.

Lemma storage_enqueue i b s : storage (enqueue cfg i b s) = storage s.
Proof. unfold enqueue, arm. destruct (_ =? _)%nat; reflexivity. Qed.

Lemma ghost_enqueue i b s :
  ghost_admitted (enqueue cfg i b s) = ghost_admitted s ++ [b]
  ∧ ghost_closed (enqueue cfg i b s) = ghost_closed s
  ∧ ghost_times (enqueue cfg i b s) = ghost_times s ++ [now i]
  ∧ pendingRequests (enqueue cfg i b s) = pendingRequests s
  ∧ resolved (enqueue cfg i b s) = resolved s.
Proof. unfold enqueue, arm. destruct (_ =? _)%nat; repeat split. Qed.

Lemma Sound_enqueue i b s :
  Sound cfg s → passes_checks s b → Sound cfg (enqueue cfg i b s).
Proof.
  intros HS Hb. destruct (passes_checks_balance s b HS Hb) as (Hpos & z & Hz & Hle).
  destruct (ghost_enqueue i b s) as (Ha & Hc & _).
  split; rewrite ?storage_enqueue, ?batch_enqueue, ?processing_enqueue.
  - apply (inv_processing cfg s HS).
  - rewrite Ha, Hc, (inv_ledger cfg s HS), app_assoc. reflexivity.
  - apply (inv_numeric cfg s HS).
  - intros b' [Hin| ->%list_elem_of_singleton]%elem_of_app.
    + apply (inv_bidders cfg s HS), Hin.
    + split; [exact Hpos|]. exists z. split; [exact Hz|lia].
  - intros Hneg. exfalso.
    destruct (inv_negative_start cfg s HS Hneg) as [_ Hall].
    specialize (Hall _ _ Hz). injection Hall as ->. lia.
  - apply (inv_cap cfg s HS).
Qed.

Lemma deduct_num z second :
  deduct (JNum (Num z)) second = Num (Z.max 0 (z - second)).
Proof.
  unfold deduct; simpl. destruct (Z.ltb_spec (z - second) 0);
    f_equal; lia.
Qed.

Lemma reward_num z :
  reward cfg (JNum (Num z)) = Num (Z.min (max_bal cfg) (z + accumulate cfg)).
Proof. reflexivity. Qed.

Lemma settle_balance_lookup via i s hb rest t :
  sort_desc (uniqueBids (batch s)) = hb :: rest →
  storage (settle cfg via i hb s) !! balance_key t
  = if decide (t ∈ token <$> batch s)
    then Some (JNum (new_balance cfg (storage s) hb
                       (or_zero (bid <$> head rest)) t))
    else storage s !! balance_key t.
Proof.
  intros Hs. destruct (decide (t ∈ token <$> batch s)) as [Hin|Hin].
  - eapply settle_balance_bidder; eauto.
  - eapply settle_frame; [exact Hs| |apply balance_key_not_message].
    intros t' Ht' Heq. apply balance_key_inj in Heq. congruence.
Qed.

Lemma sorted_in_batch l hb rest b :
  sort_desc (uniqueBids l) = hb :: rest → b ∈ hb :: rest → b ∈ l.
Proof.
  intros Hs Hb. rewrite <- Hs in Hb.
  apply uniqueBids_elem, sort_desc_elem, Hb.
Qed.

Lemma clearing_nonneg s hb rest :
  Sound cfg s → sort_desc (uniqueBids (batch s)) = hb :: rest →
  0 ≤ or_zero (bid <$> head rest).
Proof.
  intros HS Hs. destruct rest as [|b2 rest']; simpl; [lia|].
  assert (b2 ∈ batch s) as Hin.
  { eapply sorted_in_batch; [exact Hs|].
    apply list_elem_of_further, list_elem_of_here. }
  destruct (inv_bidders cfg s HS b2 Hin) as [Hpos _].
  destruct (bid b2 =? 0); lia.
Qed.

Lemma Sound_settle via i s hb rest :
  Sound cfg s → sort_desc (uniqueBids (batch s)) = hb :: rest →
  Sound cfg (settle cfg via i hb s).
Proof.
  intros HS Hs.
  pose proof (clearing_nonneg s hb rest HS Hs) as Hsec.
  assert (∀ t, t ∈ token <$> batch s →
            ∃ z, map_get (storage s) (balance_key t) = JNum (Num z)
                 ∧ storage s !! balance_key t = Some (JNum (Num z))
                 ∧ 0 ≤ z) as Hbal.
  { intros t (b & -> & Hb)%list_elem_of_fmap.
    destruct (inv_bidders cfg s HS b Hb) as (_ & z & Hz & Hz0).
    exists z. unfold map_get. rewrite Hz. auto. }
  split.
  - reflexivity.
  - cbn. rewrite (inv_ledger cfg s HS), fmap_app, concat_app. cbn.
    rewrite !app_nil_r. reflexivity.
  - intros t v. rewrite (settle_balance_lookup via i s hb rest t Hs).
    destruct (decide _) as [Hin|Hin]; [|apply (inv_numeric cfg s HS)].
    intros [= <-]. destruct (Hbal t Hin) as (z & Hz & _).
    unfold new_balance. rewrite Hz.
    destruct (String.eqb _ _); [rewrite deduct_num|rewrite reward_num]; eauto.
  - intros b Hb. inversion Hb.
  - intros Hneg. exfalso.
    destruct (inv_negative_start cfg s HS Hneg) as [He _].
    rewrite He in Hs. discriminate Hs.
  - intros Hsane t z. rewrite (settle_balance_lookup via i s hb rest t Hs).
    destruct (decide _) as [Hin|Hin]; [|apply (inv_cap cfg s HS Hsane)].
    destruct (Hbal t Hin) as (z0 & Hz & Hst & Hz0).
    pose proof (inv_cap cfg s HS Hsane _ _ Hst) as Hcap.
    destruct Hsane as [Hstart Hacc].
    unfold new_balance. rewrite Hz.
    destruct (String.eqb _ _); [rewrite deduct_num|rewrite reward_num];
      intros [= <-]; lia.
Qed.

Lemma Coupled_settle via i hb s : Coupled cfg (settle cfg via i hb s).
Proof. split; reflexivity. Qed.

Lemma Coupled_park i b s :
  Coupled cfg s →
  Coupled cfg (push_pending {| p_token := token b; resolve := rid i |}
             (enqueue cfg i b s)).
Proof.
  intros HC. unfold enqueue, arm.
  destruct (batch s) as [|b0 l] eqn:Hb.
  - pose proof (inv_times cfg s HC) as Ht. rewrite Hb in Ht.
    destruct (ghost_times s) as [|? ?] eqn:Hg; [|discriminate Ht].
    pose proof (inv_parked cfg s HC) as Hp. rewrite Hb in Hp.
    split; cbn; rewrite ?Hb, ?Hg; cbn; rewrite ?Hb, ?Hg; cbn.
    + reflexivity.
    + reflexivity.
    + rewrite fmap_app, Hp. reflexivity.
  - pose proof (inv_times cfg s HC) as Ht. rewrite Hb in Ht.
    pose proof (inv_alarm cfg s HC) as Ha.
    pose proof (inv_parked cfg s HC) as Hp. rewrite Hb in Hp.
    destruct (ghost_times s) as [|t0 ts] eqn:Hg; [discriminate Ht|].
    assert ((length (batch (push_bid b (now i) s)) =? 1)%nat = false) as ->.
    { cbn. rewrite Hb. cbn. rewrite length_app. cbn.
      apply Nat.eqb_neq. lia. }
    split; cbn; rewrite ?Hb, ?Hg; cbn.
    + rewrite !length_app. cbn in *. lia.
    + exact Ha.
    + rewrite !fmap_app, Hp. reflexivity.
Qed.

Lemma Sound_push_pending p s : Sound cfg s → Sound cfg (push_pending p s).
Proof. intros [? ? ? ? ? ?]; split; assumption. Qed.

Lemma Sound_registered tok name s : Sound cfg s → Sound cfg (registered cfg tok name s).
Proof.
  intros HS.
  assert (∀ t, storage (registered cfg tok name s) !! balance_key t
               = if decide (t = tok) then Some (JNum (Num (start cfg)))
                 else storage s !! balance_key t) as Hlook.
  { intros t. unfold registered. cbn.
    rewrite lookup_insert_ne
      by (intros H; symmetry in H; revert H; apply balance_key_not_name).
    destruct (decide (t = tok)) as [->|Hne].
    - apply lookup_insert_eq.
    - apply lookup_insert_ne. intros H%balance_key_inj. congruence. }
  split.
  - apply (inv_processing cfg s HS).
  - apply (inv_ledger cfg s HS).
  - intros t v. rewrite Hlook. destruct (decide _); [|apply (inv_numeric cfg s HS)].
    intros [= <-]; eauto.
  - intros b Hb. destruct (inv_bidders cfg s HS b Hb) as (Hpos & z & Hz & Hz0).
    split; [exact Hpos|]. rewrite Hlook.
    destruct (decide (token b = tok)); [|eauto].
    exists (start cfg). split; [reflexivity|].
    destruct (Z.lt_ge_cases (start cfg) 0) as [Hneg|]; [|assumption].
    destruct (inv_negative_start cfg s HS Hneg) as [He _].
    change (batch (registered cfg tok name s)) with (batch s) in Hb.
    rewrite He in Hb. inversion Hb.
  - intros Hneg. destruct (inv_negative_start cfg s HS Hneg) as [He Hall].
    split; [exact He|]. intros t v. rewrite Hlook.
    destruct (decide _); [intros [= <-]; reflexivity|apply Hall].
  - intros Hsane t z. rewrite Hlook.
    destruct (decide _); [|apply (inv_cap cfg s HS Hsane)].
    destruct Hsane as [Hstart _]. intros [= <-]. exact Hstart.
Qed.

Lemma delete_many_lookup keys (st : gmap string jsval) k v :
  delete_many keys st !! k = Some v → st !! k = Some v.
Proof.
  induction keys as [|k0 r IH]; [auto|].
  unfold delete_many; cbn [foldr]. intros H.
  apply lookup_delete_Some in H as [_ H]. apply IH, H.
Qed.

Lemma Sound_wiped s : Sound cfg s → Sound cfg (wiped s).
Proof.
  intros HS. split.
  - reflexivity.
  - cbn. rewrite (inv_ledger cfg s HS), fmap_app, concat_app. cbn.
    rewrite !app_nil_r. reflexivity.
  - intros t v H%delete_many_lookup. apply (inv_numeric cfg s HS _ _ H).
  - intros b Hb. inversion Hb.
  - intros Hneg. split; [reflexivity|].
    intros t v H%delete_many_lookup.
    destruct (inv_negative_start cfg s HS Hneg) as [_ Hall]. apply (Hall _ _ H).
  - intros Hsane t z H%delete_many_lookup. apply (inv_cap cfg s HS Hsane _ _ H).
Qed.

Lemma Coupled_wiped s : Coupled cfg (wiped s).
Proof. split; reflexivity. Qed.

Lemma Coupled_idle s : batch s = [] → Coupled cfg s → Coupled cfg (set_alarm_slot None s).
Proof.
  intros Hb HC. pose proof (inv_times cfg s HC) as Ht. rewrite Hb in Ht.
  split; cbn.
  - apply (inv_times cfg s HC).
  - destruct (ghost_times s); [reflexivity|discriminate Ht].
  - apply (inv_parked cfg s HC).
Qed.

Lemma transition_invariant s e s' :
  transition cfg s e s' → Sound cfg s ∧ Coupled cfg s → Sound cfg s' ∧ Coupled cfg s'.
Proof.
  intros Ht [HS HC]. destruct Ht.
  - auto.
  - split; [apply Sound_registered, HS|].
    destruct HC; split; assumption.
  - split; [apply Sound_push_pending, Sound_enqueue; assumption|].
    apply Coupled_park, HC.
  - split; [|apply Coupled_settle].
    eapply Sound_settle; [apply Sound_enqueue; eassumption|].
    rewrite batch_enqueue; eassumption.
  - split; [|apply Coupled_settle]. eapply Sound_settle; eassumption.
  - split; [|apply Coupled_idle; assumption].
    destruct HS; split; assumption.
  - split; [apply Sound_wiped, HS|apply Coupled_wiped].
Qed.

Lemma Sound_init : Sound cfg (constructor_state ∅ None).
Proof.
  split; cbn; try reflexivity.
  - intros t v H; rewrite lookup_empty in H; discriminate.
  - intros b Hb; inversion Hb.
  - intros _; split; [reflexivity|].
    intros t v H; rewrite lookup_empty in H; discriminate.
  - intros _ t z H; rewrite lookup_empty in H; discriminate.
Qed.

Lemma Coupled_init : Coupled cfg (constructor_state ∅ None).
Proof. split; reflexivity. Qed.

Lemma reachable_invariant s :
  reachable cfg no_faults s → Sound cfg s ∧ Coupled cfg s.
Proof.
  induction 1 as [|s e Hr IH Hen].
  - split; [apply Sound_init|apply Coupled_init].
  - eapply transition_invariant; [|exact IH].
    apply step_transition; [apply (inv_processing cfg s), IH|exact Hen].
Qed.

End Invariants.

(** ** The winner and the clearing price *)

Lemma sorted_head_dominates l hb rest u :
  sort_desc (uniqueBids l) = hb :: rest → u ∈ hb :: rest → bid u ≤ bid hb.
Proof.
  intros Hs Hu. pose proof (sort_desc_sorted (uniqueBids l)) as Hsorted.
  rewrite Hs in Hsorted. apply StronglySorted_inv in Hsorted as [_ Hall].
  apply elem_of_cons in Hu as [->|Hu]; [lia|].
  rewrite Forall_forall in Hall. apply (Hall u Hu).
Qed.




Lemma sorted_length l : length (sort_desc (uniqueBids l)) = length (uniqueBids l).
Proof. apply Permutation_length, sort_desc_perm. Qed.

(** ** Runs *)

Lemma run_snoc cfg es e : run cfg (es ++ [e]) = step cfg no_faults e (run cfg es).
Proof. unfold run; rewrite fold_left_app; reflexivity. Qed.

Lemma reachable_run_fetches cfg es :
  Forall (λ e, match e with EFetch _ _ => True | EAlarm _ => False end) es →
  reachable cfg no_faults (run cfg es).
Proof.
  induction es as [|e es IH] using rev_ind; intros H.
  - apply reach_init.
  - apply Forall_app in H as [H1 H2]. rewrite run_snoc.
    apply reach_step; [apply IH, H1|].
    inversion H2 as [|? ? He _]; subst. destruct e; [exact I|destruct He].
Qed.

Lemma reachable_alice_bids cfg : reachable cfg no_faults (run cfg alice_bids).
Proof. apply reachable_run_fetches. repeat constructor. Qed.


(** ** The Vickrey rule and the frame of a settlement *)





(** C8. A settlement leaves the balance of every token that placed no bid
    in the batch as it was, and the only keys whose value it changes are
    the new message key and the balance keys of the unique bidders. *)
Theorem settlement_frame cfg via i s :
  processing s = false → batch s ≠ [] →
  ∃ s',
    processBatch cfg no_faults via i s = (s', Ok tt)
    ∧ (∀ t, t ∉ token <$> batch s →
            storage s' !! balance_key t = storage s !! balance_key t)
    ∧ (∀ k, storage s' !! k ≠ storage s !! k →
            k = message_key i
            ∨ ∃ u, u ∈ uniqueBids (batch s) ∧ k = balance_key (token u)).
Proof.
  intros Hp Hne.
  destruct (sorted_cons_of_nonempty (batch s) Hne) as (hb & rest & Hs).
  exists (settle cfg via i hb s). split; [|split].
  - apply (processBatch_run cfg no_faults via i s hb rest);
      [exact Hp|apply all_sites_ok|exact Hs].
  - intros t Ht. rewrite (settle_balance_lookup cfg via i s hb rest t Hs).
    rewrite decide_False by exact Ht. reflexivity.
  - intros k Hk.
    destruct (decide (k = message_key i)) as [|Hm]; [left; assumption|].
    right.
    destruct (decide (k ∈ balance_key <$> (token <$> uniqueBids (batch s))))
      as [Hin|Hin].
    + apply list_elem_of_fmap in Hin as (t & -> & Ht).
      apply list_elem_of_fmap in Ht as (u & -> & Hu). eauto.
    + exfalso. apply Hk. eapply settle_frame; [exact Hs| |exact Hm].
      intros t Ht ->. apply Hin.
      apply list_elem_of_fmap_2, uniqueBids_token_elem, Ht.
Qed.

Lemma settlement_frame_witness :
  ∃ s',
    processBatch default_config no_faults ViaAlarm (inputs_at 3 5010)
      (run default_config alice_bids) = (s', Ok tt)
    ∧ (∀ t, t ∉ token <$> batch (run default_config alice_bids) →
            storage s' !! balance_key t
            = storage (run default_config alice_bids) !! balance_key t)
    ∧ (∀ k, storage s' !! k ≠ storage (run default_config alice_bids) !! k →
            k = message_key (inputs_at 3 5010)
            ∨ ∃ u, u ∈ uniqueBids (batch (run default_config alice_bids))
                   ∧ k = balance_key (token u)).
Proof.
  apply (settlement_frame default_config ViaAlarm (inputs_at 3 5010)
           (run default_config alice_bids)).
  - reflexivity.
  - vm_compute. discriminate.
Defined.

(** ** The cap on balances *)

(** C5, as the code has it: when the configuration has
    [0 ≤ START_BAL ≤ MAX_BAL] and [0 ≤ ACCUMULATE_BAL], every balance stored
    in a reachable state is a number between 0 and [MAX_BAL]. *)
Theorem balance_cap cfg s t v :
  sane_config cfg → reachable cfg no_faults s →
  storage s !! balance_key t = Some v →
  ∃ z, v = JNum (Num z) ∧ 0 ≤ z ≤ max_bal cfg.
Proof.
  intros Hsane Hr Hv. destruct (reachable_invariant cfg s Hr) as [HS _].
  destruct (inv_numeric cfg s HS t v Hv) as [z ->].
  exists z. split; [reflexivity|]. apply (inv_cap cfg s HS Hsane t z Hv).
Qed.

Lemma balance_cap_witness :
  ∃ z, JNum (Num 10) = JNum (Num z) ∧ 0 ≤ z ≤ max_bal default_config.
Proof.
  apply (balance_cap default_config (run default_config alice_bids)
           (token_of Byte.x00) (JNum (Num 10))).
  - unfold sane_config; cbn; lia.
  - apply reachable_alice_bids.
  - vm_compute. reflexivity.
Defined.

(** C5 as stated fails: nothing relates [START_BAL] to [MAX_BAL], and a
    registration stores [START_BAL] as it is. *)
Lemma registration_can_exceed_cap :
  let s := run start_above_cap
             [EFetch (register_request "Alice") (register_inputs Byte.x00 0)] in
  reachable start_above_cap no_faults s
  ∧ storage s !! balance_key (token_of Byte.x00) = Some (JNum (Num 200))
  ∧ max_bal start_above_cap = 100
  ∧ ¬ (200 ≤ max_bal start_above_cap).
Proof.
  split; [apply reachable_run_fetches; repeat constructor|].
  split; [vm_compute; reflexivity|]. cbn. lia.
Qed.

(** ** The alarm and the batch *)


Lemma alarm_step_settles cfg i s hb rest :
  processing s = false →
  sort_desc (uniqueBids (batch s)) = hb :: rest →
  step cfg no_faults (EAlarm i) s = settle cfg ViaAlarm i hb s.
Proof.
  intros Hp Hs. unfold step, alarm, bind, get_state.
  cbn [batch set_alarm_slot].
  destruct (batch s) as [|b0 l] eqn:Hb; [discriminate Hs|].
  cbn [length Nat.ltb Nat.leb].
  rewrite (processBatch_run cfg no_faults ViaAlarm i
             (set_alarm_slot None s) hb rest);
    [|exact Hp|apply all_sites_ok|cbn [batch set_alarm_slot]; rewrite Hb; exact Hs].
  reflexivity.
Qed.




(** ** Exactly one settlement for each batch *)



(** ** The responses of a round *)

(** A settlement resolves one response for each parked request. *)
Lemma settle_resolves_parked cfg via i hb s :
  length (resolved (settle cfg via i hb s))
  = (length (resolved s) + length (pendingRequests s))%nat.
Proof.
  unfold settle. cbn. rewrite length_app, length_fmap. reflexivity.
Qed.

(** On the alarm path every admitted bid of the round is answered. *)
Lemma alarm_fan_out cfg i s :
  reachable cfg no_faults s → batch s ≠ [] →
  length (resolved (step cfg no_faults (EAlarm i) s))
  = (length (resolved s) + length (batch s))%nat.
Proof.
  intros Hr Hne. destruct (reachable_invariant cfg s Hr) as [HS HC].
  destruct (sorted_cons_of_nonempty (batch s) Hne) as (hb & rest & Hs).
  rewrite (alarm_step_settles cfg i s hb rest (inv_processing cfg s HS) Hs).
  rewrite settle_resolves_parked.
  pose proof (f_equal length (inv_parked cfg s HC)) as Hlen.
  rewrite !length_fmap in Hlen. lia.
Qed.

(** On the threshold path the request that completes the batch is never
    parked: it is answered by the statement after the settlement, and the
    settlement resolves one response fewer than the batch has bids. *)
Lemma threshold_caller_unanswered cfg r i s s' reply :
  reachable cfg no_faults s →
  handleSendMessage cfg no_faults r i s = (s', Ok reply) →
  ghost_closed s' ≠ ghost_closed s →
  reply = text_response 500 "Unexpected error"
  ∧ ∃ l, ghost_closed s' = ghost_closed s ++ [(ViaThreshold, l)]
         ∧ (length (resolved s') + 1 = length (resolved s) + length l)%nat.
Proof.
  intros Hr Hrun Hclosed. destruct (reachable_invariant cfg s Hr) as [HS HC].
  pose proof (handleSendMessage_outcome cfg no_faults r i s) as Hout.
  rewrite Hrun in Hout.
  inversion Hout as [res Hs'|b Hb Hth Hs'|b Hb Hth Hs'].
  - subst s'. contradiction.
  - exfalso. apply Hclosed. subst s'.
    destruct (ghost_enqueue cfg i b s) as (_ & Hc & _). exact Hc.
  - destruct (sorted_cons_of_nonempty (batch s ++ [b])) as (hb & rest & Hs).
    { destruct (batch s); discriminate. }
    unfold bind in Hs'.
    rewrite (processBatch_run cfg no_faults ViaThreshold i
               (enqueue cfg i b s) hb rest) in Hs';
      [|rewrite processing_enqueue; apply (inv_processing cfg s HS)
       |apply all_sites_ok|rewrite batch_enqueue; exact Hs].
    cbn [ret] in Hs'. injection Hs' as Hs1 Hs2. subst s' reply.
    split; [reflexivity|]. exists (batch s ++ [b]).
    destruct (ghost_enqueue cfg i b s) as (_ & Hc & _ & Hp & Hres).
    split; [cbn; rewrite Hc, batch_enqueue; reflexivity|].
    rewrite settle_resolves_parked, Hp, Hres, length_app. cbn [length].
    pose proof (f_equal length (inv_parked cfg s HC)) as Hlen.
    rewrite !length_fmap in Hlen. lia.
Qed.

(** C2 on the code: with [N = 5], the fifth bid triggers the settlement.
    Its batch holds five admitted bids, four responses are resolved, none
    of them for the fifth request, and the fifth caller, the winner, is
    answered 500 [Unexpected error]. *)
Theorem threshold_round_misses_its_trigger :
  let s4 := run default_config four_parked in
  let out := fetch default_config no_faults fifth_bid (inputs_at 5 14) s4 in
  N default_config = 5
  ∧ length (batch s4) = 4%nat
  ∧ out.2 = Ok (Now {| status := 500; body := BText "Unexpected error" |})
  ∧ (∃ l, ghost_closed out.1 = [(ViaThreshold, l)] ∧ length l = 5%nat)
  ∧ length (resolved out.1) = 4%nat
  ∧ (resolved out.1).*1 = [1; 2; 3; 4]%nat
  ∧ storage out.1 !! balance_key (token_of Byte.x04) = Some (JNum (Num 6)).
Proof.
  vm_compute. repeat split. eexists. split; reflexivity.
Qed.

(** ** The replies of [fetch] *)

Lemma falsy_false_default o : falsy o = false → default "" o ≠ "".
Proof.
  destruct o as [x|]; [|discriminate]. cbn. apply String.eqb_neq.
Qed.

Lemma handleSendMessage_case cfg fails r i s :
  send_case cfg fails r i s (handleSendMessage cfg fails r i s).
Proof.
  unfold handleSendMessage.
  destruct (String.eqb_spec (method r) "POST") as [Hm|Hm]; cbn [negb];
    [|apply sc_wrong_method, Hm].
  destruct (falsy (x_client_token r)) eqn:Htok; [apply sc_rejected|].
  unfold bind at 1, parseRequestBody.
  destruct (json r) as [b|] eqn:Hj; [|apply sc_threw; auto]. cbn [ret].
  destruct (falsy (j_message b) || bid_is_null (j_bid b))%bool eqn:Hmsg;
    [apply sc_rejected|].
  apply orb_false_iff in Hmsg as [Hmsg _].
  destruct (j_bid b) as [| |amount];
    [apply sc_rejected|apply sc_rejected|].
  destruct (amount <=? 0) eqn:Hpos; [apply sc_rejected|].
  unfold bind at 1, storage_get, storage_call.
  destruct (fails L235) eqn:HF; [apply sc_threw; auto|].
  set (tok := default "" (x_client_token r)).
  set (msg := default "" (j_message b)).
  set (nb := {| token := tok; message := msg; bid := amount |}).
  destruct (is_nullish (map_get (storage s) (balance_key tok))
            || num_lt (to_number (map_get (storage s) (balance_key tok)))
                 (Num amount))%bool eqn:Hbal; [apply sc_rejected|].
  assert (passes_checks s nb) as Hpass by (split; assumption).
  assert (valid_bid nb) as Hvalid.
  { split; [apply falsy_false_default, Htok|].
    split; [apply falsy_false_default, Hmsg|]. apply Z.leb_gt, Hpos. }
  unfold bind at 1, modify at 1. unfold bind at 1, get_state at 1.
  assert (∀ (k : M Reply),
    bind (if (length (batch (push_bid nb (now i) s)) =? 1)%nat
          then storage_setAlarm (now i + timeout cfg) else ret tt)
      (λ _, k) (push_bid nb (now i) s) = k (enqueue cfg i nb s)) as Harm.
  { intros k. unfold enqueue, arm, bind, storage_setAlarm, modify, ret.
    destruct (length (batch (push_bid nb (now i) s)) =? 1)%nat; reflexivity. }
  rewrite Harm.
  assert (batch (push_bid nb (now i) s) = batch (enqueue cfg i nb s)) as Hb.
  { unfold enqueue, arm. destruct (_ =? _)%nat; reflexivity. }
  rewrite Hb. fold (at_threshold cfg (enqueue cfg i nb s)).
  destruct (at_threshold cfg (enqueue cfg i nb s)) eqn:Hth.
  - apply (sc_settles cfg fails r i s nb Hvalid Hpass Hth).
  - apply (sc_parks cfg fails r i s nb Hvalid Hpass Hth).
Qed.

Lemma processBatch_throw_cause cfg fails via i s s' e :
  processBatch cfg fails via i s = (s', Throw e) →
  batch s = [] ∨ ∃ l, l ∈ settlement_sites ∧ fails l = true.
Proof.
  unfold processBatch, bind, get_state, modify, ret, throw,
    storage_deleteAlarm, storage_get_keys, storage_put_object, storage_put,
    storage_call.
  destruct (processing s); [discriminate|].
  destruct (fails L269) eqn:F1;
    [intros _; right; exists L269; split; [set_solver|assumption]|].
  destruct (fails L288) eqn:F2;
    [intros _; right; exists L288; split; [set_solver|assumption]|].
  destruct (fails L289) eqn:F3;
    [intros _; right; exists L289; split; [set_solver|assumption]|].
  cbn [batch set_alarm_slot set_processing storage].
  destruct (sort_desc (uniqueBids (batch s))) as [|hb rest] eqn:Hs.
  - intros _. left. destruct (batch s) as [|b l] eqn:Hb; [reflexivity|].
    exfalso. apply sort_desc_nil in Hs.
    apply (uniqueBids_nonempty (b :: l)); [discriminate|exact Hs].
  - destruct (fails L332) eqn:F4;
      [intros _; right; exists L332; split; [set_solver|assumption]|].
    destruct (fails L344) eqn:F5;
      [intros _; right; exists L344; split; [set_solver|assumption]|].
    discriminate.
Qed.

Lemma processBatch_batch cfg fails via i s s' res b :
  processBatch cfg fails via i s = (s', res) → b ∈ batch s' → b ∈ batch s.
Proof.
  unfold processBatch, bind, get_state, modify, ret, throw,
    storage_deleteAlarm, storage_get_keys, storage_put_object, storage_put,
    storage_call.
  destruct (processing s); [intros [= <- _]; auto|].
  destruct (fails L269); [intros [= <- _]; auto|].
  destruct (fails L288); [intros [= <- _]; auto|].
  destruct (fails L289); [intros [= <- _]; auto|].
  cbn [batch set_alarm_slot set_processing storage].
  destruct (sort_desc (uniqueBids (batch s))) as [|hb rest];
    [intros [= <- _]; auto|].
  destruct (fails L332); [intros [= <- _]; auto|].
  destruct (fails L344); [intros [= <- _]; auto|].
  intros [= <- _] H. inversion H.
Qed.

Ltac batch_kept :=
  let b := fresh "b" in
  let H := fresh "H" in
  intros b H; cbn in H; first [left; exact H | inversion H].

Lemma fetch_cases cfg fails r i s :
  fetch_case cfg fails r i s (fetch cfg fails r i s).
Proof.
  unfold fetch, fetch_route.
  destruct (String.eqb_spec (method r) "OPTIONS") as [Ho|Ho];
    [apply fc_read|].
  destruct (String.eqb_spec (pathname r) "/register") as [Hp|Hp].
  { destruct (String.eqb_spec (method r) "PUT") as [Hm|Hm];
      [|apply fc_refused; auto].
    assert (writing_request r) as Hw by (left; auto).
    unfold handleRegister. rewrite Hm. cbn [String.eqb Ascii.eqb Bool.eqb negb].
    unfold bind at 1, parseRequestBody.
    destruct (json r) as [b|] eqn:Hj;
      [|apply fc_failed; [auto|auto|batch_kept]]. cbn [ret].
    destruct (falsy (j_name b)); [apply fc_refused; auto|].
    unfold bind, storage_put, storage_call, ret.
    destruct (fails L89) eqn:F1; [apply fc_failed; [eauto|auto|batch_kept]|].
    destruct (fails L90) eqn:F2; [apply fc_failed; [eauto|auto|batch_kept]|].
    apply fc_wrote; [exact Hw|batch_kept]. }
  destruct (String.eqb_spec (pathname r) "/messages") as [Hp1|Hp1].
  { destruct (String.eqb_spec (method r) "POST") as [Hm|Hm].
    - assert (writing_request r) as Hw by (right; left; auto).
      destruct (handleSendMessage_case cfg fails r i s)
        as [Hc|msg|e He|b Hv Hb Hth|b Hv Hb Hth].
      + contradiction.
      + apply fc_refused; auto.
      + apply fc_failed; [|auto|batch_kept].
        destruct He as [He|He]; [left; auto|right; eauto].
      + apply fc_parked; [exact Hw|].
        intros b0 H0. cbn [batch push_pending] in H0.
        rewrite batch_enqueue in H0.
        apply elem_of_app in H0 as [H0| ->%list_elem_of_singleton]; auto.
      + assert (∀ s' res,
          processBatch cfg fails ViaThreshold i (enqueue cfg i b s) = (s', res)
          → batch_grown s s') as Hgrown.
        { intros s' res Hrun b0 H0.
          apply (processBatch_batch _ _ _ _ _ _ _ _ Hrun) in H0.
          rewrite batch_enqueue in H0.
          apply elem_of_app in H0 as [H0| ->%list_elem_of_singleton]; auto. }
        unfold bind.
        destruct (processBatch cfg fails ViaThreshold i (enqueue cfg i b s))
          as [s' [[]|e]] eqn:Hrun; cbn [ret].
        * apply fc_fell_through; [exact Hw|eapply Hgrown; reflexivity].
        * apply fc_failed; [|auto|eapply Hgrown; reflexivity]. right.
          apply processBatch_throw_cause in Hrun as [He|(l & _ & Hl)];
            [|eauto].
          rewrite batch_enqueue in He. destruct (batch s); discriminate.
    - destruct (String.eqb_spec (method r) "GET") as [Hg|Hg];
        [|apply fc_refused; auto].
      unfold handleReplayMessages. rewrite Hg.
      cbn [String.eqb Ascii.eqb Bool.eqb negb].
      unfold bind, storage_list, storage_call, ret.
      destruct (fails L194) eqn:F;
        [apply fc_failed; [eauto|auto|batch_kept]|apply fc_read]. }
  destruct (String.eqb_spec (pathname r) "/balance") as [Hp2|Hp2].
  { destruct (String.eqb_spec (method r) "GET") as [Hg|Hg];
      [|apply fc_refused; auto].
    unfold handleGetBalance. rewrite Hg.
    cbn [String.eqb Ascii.eqb Bool.eqb negb].
    destruct (falsy _); [apply fc_refused; auto|].
    unfold bind, storage_get, storage_call, ret.
    destruct (fails L110) eqn:F1; [apply fc_failed; [eauto|auto|batch_kept]|].
    destruct (fails L111) eqn:F2; [apply fc_failed; [eauto|auto|batch_kept]|].
    destruct (is_nullish _); [apply fc_refused; auto|apply fc_read]. }
  destruct (String.eqb_spec (pathname r) "/clients") as [Hp3|Hp3].
  { destruct (String.eqb_spec (method r) "GET") as [Hg|Hg];
      [|apply fc_refused; auto].
    unfold handleListClients. rewrite Hg.
    cbn [String.eqb Ascii.eqb Bool.eqb negb].
    destruct (negb (authorized cfg r)); [apply fc_refused; auto|].
    unfold bind, storage_list, storage_get_keys, storage_call, ret.
    destruct (fails L139) eqn:F1; [apply fc_failed; [eauto|auto|batch_kept]|].
    destruct (fails L154) eqn:F2; [apply fc_failed; [eauto|auto|batch_kept]|].
    apply fc_read. }
  destruct (String.eqb_spec (pathname r) "/delete") as [Hp4|Hp4].
  { destruct (String.eqb_spec (method r) "GET") as [Hg|Hg];
      [|apply fc_refused; auto].
    assert (writing_request r) as Hw by (right; right; auto).
    unfold handleDelete. rewrite Hg.
    cbn [String.eqb Ascii.eqb Bool.eqb negb].
    destruct (negb (authorized cfg r)); [apply fc_refused; auto|].
    unfold bind, storage_deleteAlarm, storage_list, storage_delete,
      storage_call, modify, ret.
    destruct (fails L398) eqn:F1; [apply fc_failed; [eauto|auto|batch_kept]|].
    destruct (fails L404) eqn:F2; [apply fc_failed; [eauto|auto|batch_kept]|].
    destruct (fails L410) eqn:F3; [apply fc_failed; [eauto|auto|batch_kept]|].
    destruct (fails L416) eqn:F4; [apply fc_failed; [eauto|auto|batch_kept]|].
    destruct (fails L422) eqn:F5; [apply fc_failed; [eauto|auto|batch_kept]|].
    apply fc_wrote; [exact Hw|batch_kept]. }
  apply fc_refused; auto.
Qed.

(** X1. [fetch] never throws, whichever storage calls fail: a request is
    answered or parked, and the status of an answer is 200, 400, 401, 404
    or 500, never 405. *)
Theorem fetch_answers_known_status cfg fails r i s :
  ∃ reply,
    (fetch cfg fails r i s).2 = Ok reply
    ∧ match reply with
      | Now resp => answered_status (status resp) ∧ status resp ≠ 405
      | Parked => True
      end.
Proof.
  destruct (fetch_cases cfg fails r i s)
    as [code msg Hc|b|s' _ _ _|s' b _ _|s' _ _|s' _ _]; eexists; (split; [reflexivity|]);
    cbn; unfold answered_status; try tauto; lia.
Qed.

(** X2. A request answered with a status from 400 to 499 leaves the
    scheduler as it was: storage, alarm, batch and parked requests. *)
Theorem client_error_changes_nothing cfg fails r i s s' resp :
  fetch cfg fails r i s = (s', Ok (Now resp)) →
  400 ≤ status resp < 500 →
  s' = s.
Proof.
  intros Hrun Hst. pose proof (fetch_cases cfg fails r i s) as Hc.
  rewrite Hrun in Hc.
  inversion Hc; subst; cbn in Hst; try lia; reflexivity.
Qed.

Lemma client_error_changes_nothing_witness :
  (fetch default_config no_faults (send_request (token_of Byte.x00) "hi" 11)
     (inputs_at 1 10) (run default_config alice_registered)).1
  = run default_config alice_registered.
Proof.
  apply (client_error_changes_nothing default_config no_faults
           (send_request (token_of Byte.x00) "hi" 11) (inputs_at 1 10)
           (run default_config alice_registered) _
           {| status := 400;
              body := BText "Invalid token or insufficient balance" |}).
  - vm_compute. reflexivity.
  - cbn. lia.
Defined.

(** X3. Only [PUT /register], [POST /messages] and [GET /delete] change
    the state of the scheduler. *)
Theorem only_three_routes_write cfg fails r i s :
  (fetch cfg fails r i s).1 ≠ s → writing_request r.
Proof.
  intros Hne. destruct (fetch_cases cfg fails r i s)
    as [code msg Hc|b|s' _ [Hw| ->] _|s' b Hw _|s' Hw _|s' Hw _];
    cbn in Hne; try contradiction; assumption.
Qed.

Lemma only_three_routes_write_witness :
  writing_request (register_request "Alice").
Proof.
  apply (only_three_routes_write default_config no_faults
           (register_request "Alice") (register_inputs Byte.x00 0)
           (constructor_state ∅ None)).
  intros H.
  apply (f_equal (λ s, storage s !! balance_key (token_of Byte.x00))) in H.
  vm_compute in H. discriminate H.
Defined.

(** X4. The answer 500 [Internal Server Error] has one of two causes: the
    request carries no JSON body, and then the state is unchanged, or a
    storage call threw. *)
Theorem internal_error_has_a_cause cfg fails r i s s' :
  fetch cfg fails r i s
  = (s', Ok (Now {| status := 500; body := BText "Internal Server Error" |})) →
  (json r = None ∧ s' = s) ∨ ∃ l, fails l = true.
Proof.
  intros Hrun. pose proof (fetch_cases cfg fails r i s) as Hc.
  rewrite Hrun in Hc.
  inversion Hc as [code msg Hcode|b|s1 Hcause _ _|s1 b _ _|s1 _ _|s1 _ _]; subst;
    try discriminate.
  - destruct Hcode as [H|[H|H]]; discriminate.
  - exact Hcause.
Qed.

Lemma internal_error_has_a_cause_witness :
  (json (bare_request "PUT" "/register") = None
   ∧ constructor_state ∅ None = constructor_state ∅ None)
  ∨ ∃ l, no_faults l = true.
Proof.
  apply (internal_error_has_a_cause default_config no_faults
           (bare_request "PUT" "/register") (inputs_at 0 0)
           (constructor_state ∅ None) (constructor_state ∅ None)).
  reflexivity.
Defined.

(** ** Registration and balance *)

Lemma falsy_Some_false x : x ≠ "" → falsy (Some x) = false.
Proof. intros H. cbn. apply String.eqb_neq, H. Qed.

Lemma fetch_register cfg fails name i s :
  name ≠ "" → fails L89 = false → fails L90 = false →
  fetch cfg fails (register_request name) i s
  = (registered cfg (Token.generateToken (randomBytes i)) name s,
     Ok (Now {| status := 200;
                body := BRegistered (Token.generateToken (randomBytes i))
                          (start cfg) name |})).
Proof.
  intros Hn F1 F2. unfold fetch, fetch_route, register_request.
  cbn [method pathname String.eqb Ascii.eqb Bool.eqb].
  unfold handleRegister. cbn [method String.eqb Ascii.eqb Bool.eqb negb].
  unfold bind, parseRequestBody, ret. cbn [json j_name].
  rewrite (falsy_Some_false _ Hn).
  unfold storage_put, storage_call. rewrite F1, F2. reflexivity.
Qed.

Lemma fetch_balance cfg fails tok i s :
  tok ≠ "" → fails L110 = false → fails L111 = false →
  fetch cfg fails (balance_request tok) i s
  = (s, Ok (if is_nullish (map_get (storage s) (balance_key tok))
            then text_response 400 "Invalid token"
            else Now {| status := 200;
                        body := BBalance
                                  (map_get (storage s) (balance_key tok))
                                  (map_get (storage s) (name_key tok)) |})).
Proof.
  intros Ht F1 F2. unfold fetch, fetch_route, balance_request.
  cbn [method pathname String.eqb Ascii.eqb Bool.eqb].
  unfold handleGetBalance.
  cbn [method String.eqb Ascii.eqb Bool.eqb negb x_client_token].
  rewrite (falsy_Some_false _ Ht).
  unfold bind, storage_get, storage_call, ret. rewrite F1, F2.
  cbn [default]. destruct (is_nullish _); reflexivity.
Qed.

Lemma registered_lookup_balance cfg tok name s :
  storage (registered cfg tok name s) !! balance_key tok
  = Some (JNum (Num (start cfg))).
Proof.
  unfold registered. cbn.
  rewrite lookup_insert_ne
    by (intros H; symmetry in H; revert H; apply balance_key_not_name).
  apply lookup_insert_eq.
Qed.

Lemma registered_lookup_name cfg tok name s :
  storage (registered cfg tok name s) !! name_key tok = Some (JStr name).
Proof. unfold registered. cbn. apply lookup_insert_eq. Qed.

(** X5. A registration with a name stores the start balance and the name
    under the generated token and answers with the three; with that token,
    if it is not empty, [GET /balance] then answers with the start balance
    and the name, and changes nothing. *)
Theorem register_then_balance cfg name i i' s :
  name ≠ "" →
  let tok := Token.generateToken (randomBytes i) in
  let s1 := registered cfg tok name s in
  fetch cfg no_faults (register_request name) i s
  = (s1, Ok (Now {| status := 200;
                    body := BRegistered tok (start cfg) name |}))
  ∧ (tok ≠ "" →
     fetch cfg no_faults (balance_request tok) i' s1
     = (s1, Ok (Now {| status := 200;
                       body := BBalance (JNum (Num (start cfg)))
                                 (JStr name) |}))).
Proof.
  intros Hn tok s1. split.
  - apply fetch_register; [exact Hn|reflexivity|reflexivity].
  - intros Ht. rewrite fetch_balance by (auto; reflexivity).
    unfold map_get. subst s1.
    rewrite registered_lookup_balance, registered_lookup_name. reflexivity.
Qed.

Lemma register_then_balance_witness :
  let tok := Token.generateToken (randomBytes (register_inputs Byte.x00 0)) in
  let s1 := registered default_config tok "Alice" (constructor_state ∅ None) in
  fetch default_config no_faults (register_request "Alice")
    (register_inputs Byte.x00 0) (constructor_state ∅ None)
  = (s1, Ok (Now {| status := 200;
                    body := BRegistered tok (start default_config) "Alice" |}))
  ∧ (tok ≠ "" →
     fetch default_config no_faults (balance_request tok) (inputs_at 1 5) s1
     = (s1, Ok (Now {| status := 200;
                       body := BBalance (JNum (Num (start default_config)))
                                 (JStr "Alice") |}))).
Proof.
  apply (register_then_balance default_config "Alice"
           (register_inputs Byte.x00 0) (inputs_at 1 5)
           (constructor_state ∅ None)).
  discriminate.
Defined.

(** X6. When the random bytes give the empty token, the registration
    still stores a balance under it, and the balance and message routes
    then refuse that token with 400 [Missing token header]. *)
Theorem empty_token_is_issued_but_refused cfg name i i' msg amount s :
  name ≠ "" →
  Token.generateToken (randomBytes i) = "" →
  let s1 := (fetch cfg no_faults (register_request name) i s).1 in
  storage s1 !! balance_key "" = Some (JNum (Num (start cfg)))
  ∧ fetch cfg no_faults (balance_request "") i' s1
    = (s1, Ok (text_response 400 "Missing token header"))
  ∧ fetch cfg no_faults (send_request "" msg amount) i' s1
    = (s1, Ok (text_response 400 "Missing token header")).
Proof.
  intros Hn Htok s1. subst s1.
  rewrite fetch_register by (auto; reflexivity). cbn [fst]. rewrite Htok.
  split; [apply registered_lookup_balance|]. split; reflexivity.
Qed.

Lemma empty_token_is_issued_but_refused_witness :
  let s1 := (fetch default_config no_faults (register_request "Alice")
               (register_inputs Byte.xff 0) (constructor_state ∅ None)).1 in
  storage s1 !! balance_key "" = Some (JNum (Num (start default_config)))
  ∧ fetch default_config no_faults (balance_request "") (inputs_at 1 5) s1
    = (s1, Ok (text_response 400 "Missing token header"))
  ∧ fetch default_config no_faults (send_request "" "hi" 3) (inputs_at 1 5) s1
    = (s1, Ok (text_response 400 "Missing token header")).
Proof.
  apply (empty_token_is_issued_but_refused default_config "Alice"
           (register_inputs Byte.xff 0) (inputs_at 1 5) "hi" 3
           (constructor_state ∅ None)).
  - discriminate.
  - vm_compute. reflexivity.
Defined.

(** X7. The two writes of a registration are not atomic: when the write
    of the name throws, the answer is 500 and the balance written before it
    stays in the storage, the name as it was. *)
Theorem name_write_failure_leaves_balance cfg fails name i s :
  name ≠ "" → fails L89 = false → fails L90 = true →
  let tok := Token.generateToken (randomBytes i) in
  fetch cfg fails (register_request name) i s
  = (balance_written cfg tok s,
     Ok (text_response 500 "Internal Server Error"))
  ∧ storage (balance_written cfg tok s) !! balance_key tok
    = Some (JNum (Num (start cfg)))
  ∧ storage (balance_written cfg tok s) !! name_key tok
    = storage s !! name_key tok.
Proof.
  intros Hn F1 F2 tok. split; [|split].
  - unfold fetch, fetch_route, register_request.
    cbn [method pathname String.eqb Ascii.eqb Bool.eqb].
    unfold handleRegister. cbn [method String.eqb Ascii.eqb Bool.eqb negb].
    unfold bind, parseRequestBody, ret. cbn [json j_name].
    rewrite (falsy_Some_false _ Hn).
    unfold storage_put, storage_call. rewrite F1, F2. reflexivity.
  - apply lookup_insert_eq.
  - cbn. apply lookup_insert_ne. apply balance_key_not_name.
Qed.

Lemma name_write_failure_leaves_balance_witness :
  let tok := Token.generateToken (randomBytes (register_inputs Byte.x00 0)) in
  fetch default_config name_write_fails (register_request "Alice")
    (register_inputs Byte.x00 0) (constructor_state ∅ None)
  = (balance_written default_config tok (constructor_state ∅ None),
     Ok (text_response 500 "Internal Server Error"))
  ∧ storage (balance_written default_config tok (constructor_state ∅ None))
      !! balance_key tok
    = Some (JNum (Num (start default_config)))
  ∧ storage (balance_written default_config tok (constructor_state ∅ None))
      !! name_key tok
    = storage (constructor_state ∅ None) !! name_key tok.
Proof.
  apply (name_write_failure_leaves_balance default_config name_write_fails
           "Alice" (register_inputs Byte.x00 0) (constructor_state ∅ None)).
  - discriminate.
  - reflexivity.
  - reflexivity.
Defined.

(** ** Sending a bid *)

Lemma fetch_send_refused cfg fails tok msg amount i s :
  tok ≠ "" → msg ≠ "" → 0 < amount → fails L235 = false →
  (is_nullish (map_get (storage s) (balance_key tok))
   || num_lt (to_number (map_get (storage s) (balance_key tok)))
        (Num amount))%bool = true →
  fetch cfg fails (send_request tok msg amount) i s
  = (s, Ok (text_response 400 "Invalid token or insufficient balance")).
Proof.
  intros Ht Hm Ha F Hbal. unfold fetch, fetch_route, send_request.
  cbn [method pathname String.eqb Ascii.eqb Bool.eqb].
  unfold handleSendMessage.
  cbn [method String.eqb Ascii.eqb Bool.eqb negb x_client_token].
  rewrite (falsy_Some_false _ Ht).
  unfold bind at 1, parseRequestBody. cbn [json ret j_message j_bid].
  rewrite (falsy_Some_false _ Hm). cbn [bid_is_null orb].
  destruct (Z.leb_spec amount 0) as [|_]; [lia|].
  unfold bind at 1, storage_get, storage_call. rewrite F.
  cbn [default from_option id]. rewrite Hbal. reflexivity.
Qed.

Lemma fetch_send_parked cfg fails tok msg amount i s :
  tok ≠ "" → msg ≠ "" → 0 < amount → fails L235 = false →
  (is_nullish (map_get (storage s) (balance_key tok))
   || num_lt (to_number (map_get (storage s) (balance_key tok)))
        (Num amount))%bool = false →
  let b := {| token := tok; message := msg; bid := amount |} in
  at_threshold cfg (enqueue cfg i b s) = false →
  fetch cfg fails (send_request tok msg amount) i s
  = (push_pending {| p_token := tok; resolve := rid i |} (enqueue cfg i b s),
     Ok Parked).
Proof.
  intros Ht Hm Ha F Hbal b Hth. unfold fetch, fetch_route, send_request.
  cbn [method pathname String.eqb Ascii.eqb Bool.eqb].
  unfold handleSendMessage.
  cbn [method String.eqb Ascii.eqb Bool.eqb negb x_client_token].
  rewrite (falsy_Some_false _ Ht).
  unfold bind at 1, parseRequestBody. cbn [json ret j_message j_bid].
  rewrite (falsy_Some_false _ Hm). cbn [bid_is_null orb].
  destruct (Z.leb_spec amount 0) as [|_]; [lia|].
  unfold bind at 1, storage_get, storage_call. rewrite F.
  cbn [default from_option id]. rewrite Hbal.
  unfold bind at 1, modify at 1. unfold bind at 1, get_state at 1.
  fold b.
  assert (∀ (k : M Reply),
    bind (if (length (batch (push_bid b (now i) s)) =? 1)%nat
          then storage_setAlarm (now i + timeout cfg) else ret tt)
      (λ _, k) (push_bid b (now i) s) = k (enqueue cfg i b s)) as Harm.
  { intros k. unfold enqueue, arm, bind, storage_setAlarm, modify, ret.
    destruct (length (batch (push_bid b (now i) s)) =? 1)%nat; reflexivity. }
  rewrite Harm.
  assert (batch (push_bid b (now i) s) = batch (enqueue cfg i b s)) as Hb.
  { unfold enqueue, arm. destruct (_ =? _)%nat; reflexivity. }
  rewrite Hb. fold (at_threshold cfg (enqueue cfg i b s)). rewrite Hth.
  reflexivity.
Qed.

(** X8. A bid from a token with no balance, or with a balance below the
    bid, is answered 400 and changes nothing. *)
Theorem insufficient_balance_is_refused cfg tok msg amount i s :
  tok ≠ "" → msg ≠ "" → 0 < amount →
  (storage s !! balance_key tok = None
   ∨ ∃ z, storage s !! balance_key tok = Some (JNum (Num z)) ∧ z < amount) →
  fetch cfg no_faults (send_request tok msg amount) i s
  = (s, Ok (text_response 400 "Invalid token or insufficient balance")).
Proof.
  intros Ht Hm Ha Hbal. apply fetch_send_refused; auto.
  unfold map_get. destruct Hbal as [->|(z & -> & Hz)]; [reflexivity|].
  cbn. apply Z.ltb_lt, Hz.
Qed.

Lemma insufficient_balance_is_refused_witness :
  fetch default_config no_faults (send_request (token_of Byte.x00) "hi" 11)
    (inputs_at 1 10) (run default_config alice_registered)
  = (run default_config alice_registered,
     Ok (text_response 400 "Invalid token or insufficient balance")).
Proof.
  apply (insufficient_balance_is_refused default_config (token_of Byte.x00)
           "hi" 11 (inputs_at 1 10) (run default_config alice_registered)).
  - vm_compute. discriminate.
  - discriminate.
  - lia.
  - right. exists 10. split; [vm_compute; reflexivity|lia].
Defined.

(** X9. A bid that its balance covers, and that leaves the batch below
    the threshold, is parked: it is appended to the batch and its request
    to the parked requests, the alarm is set to [now + timeout] if the
    batch was empty and is left alone otherwise, and the storage is
    untouched (the bid is not charged yet). *)
Theorem valid_bid_is_parked cfg tok msg amount i s z :
  tok ≠ "" → msg ≠ "" → 0 < amount →
  storage s !! balance_key tok = Some (JNum (Num z)) → amount ≤ z →
  Z.of_nat (length (batch s)) + 1 < N cfg →
  ∃ s',
    fetch cfg no_faults (send_request tok msg amount) i s = (s', Ok Parked)
    ∧ batch s' = batch s ++ [{| token := tok; message := msg; bid := amount |}]
    ∧ pendingRequests s'
      = pendingRequests s ++ [{| p_token := tok; resolve := rid i |}]
    ∧ alarm_slot s'
      = (if decide (batch s = []) then Some (now i + timeout cfg)
         else alarm_slot s)
    ∧ storage s' = storage s
    ∧ resolved s' = resolved s.
Proof.
  intros Ht Hm Ha Hz Hle Hn. eexists. split.
  - apply fetch_send_parked; auto.
    + unfold map_get. rewrite Hz. cbn. apply Z.ltb_ge, Hle.
    + unfold at_threshold. rewrite batch_enqueue, length_app. cbn [length].
      rewrite Z.geb_leb. apply Z.leb_gt. lia.
  - unfold enqueue, arm. cbn [batch push_bid].
    rewrite length_app. cbn [length].
    destruct (batch s) as [|b0 l] eqn:Hb; cbn [length].
    + cbn. repeat split; try reflexivity. rewrite Hb. reflexivity.
    + destruct (Nat.eqb_spec (S (length l) + 1) 1); [lia|].
      cbn. rewrite Hb. repeat split; reflexivity.
Qed.

Lemma valid_bid_is_parked_witness :
  ∃ s',
    fetch default_config no_faults (send_request (token_of Byte.x00) "hi" 3)
      (inputs_at 1 10) (run default_config alice_registered)
    = (s', Ok Parked)
    ∧ batch s'
      = batch (run default_config alice_registered)
        ++ [{| token := token_of Byte.x00; message := "hi"; bid := 3 |}]
    ∧ pendingRequests s'
      = pendingRequests (run default_config alice_registered)
        ++ [{| p_token := token_of Byte.x00; resolve := rid (inputs_at 1 10) |}]
    ∧ alarm_slot s'
      = (if decide (batch (run default_config alice_registered) = [])
         then Some (now (inputs_at 1 10) + timeout default_config)
         else alarm_slot (run default_config alice_registered))
    ∧ storage s' = storage (run default_config alice_registered)
    ∧ resolved s' = resolved (run default_config alice_registered).
Proof.
  apply (valid_bid_is_parked default_config (token_of Byte.x00) "hi" 3
           (inputs_at 1 10) (run default_config alice_registered) 10).
  - vm_compute. discriminate.
  - discriminate.
  - lia.
  - vm_compute. reflexivity.
  - lia.
  - vm_compute. reflexivity.
Defined.

Lemma step_batch_grown cfg fails e s : batch_grown s (step cfg fails e s).
Proof.
  destruct e as [r i|i]; cbn [step].
  - destruct (fetch_cases cfg fails r i s)
      as [code msg Hc|b|s' _ _ Hg|s' b _ Hg|s' _ Hg|s' _ Hg]; cbn [fst];
      try exact Hg; intros b0 H0; left; exact H0.
  - unfold alarm, bind, get_state. cbn [batch set_alarm_slot].
    destruct (0 <? length (batch s))%nat.
    + destruct (processBatch cfg fails ViaAlarm i (set_alarm_slot None s))
        as [s' res] eqn:Hrun. cbn [fst]. intros b Hb. left.
      apply (processBatch_batch _ _ _ _ _ _ _ _ Hrun) in Hb. exact Hb.
    + intros b Hb. left. exact Hb.
Qed.

Lemma reachable_batch_valid cfg fails s b :
  reachable cfg fails s → b ∈ batch s → valid_bid b.
Proof.
  intros Hr. revert b. induction Hr as [|s e Hr IH Hen]; intros b Hb.
  - inversion Hb.
  - apply step_batch_grown in Hb as [Hb|Hb]; auto.
Qed.

(** X10. Between requests, when no storage call throws: no settlement is
    running, the parked requests are those of the bids of the batch, in
    order, and every bid of the batch has a token, a message, a positive
    amount and a stored balance that is a number and not negative. *)
Theorem waiting_bids_are_backed cfg s :
  reachable cfg no_faults s →
  processing s = false
  ∧ p_token <$> pendingRequests s = token <$> batch s
  ∧ ∀ b, b ∈ batch s →
         token b ≠ "" ∧ message b ≠ "" ∧ 0 < bid b
         ∧ ∃ z, storage s !! balance_key (token b) = Some (JNum (Num z))
                ∧ 0 ≤ z.
Proof.
  intros Hr. destruct (reachable_invariant cfg s Hr) as [HS HC].
  split; [apply (inv_processing cfg s HS)|].
  split; [apply (inv_parked cfg s HC)|].
  intros b Hb.
  destruct (reachable_batch_valid cfg no_faults s b Hr Hb) as (Ht & Hm & Hp).
  destruct (inv_bidders cfg s HS b Hb) as (_ & Hz).
  auto.
Qed.

Lemma waiting_bids_are_backed_witness :
  processing (run default_config alice_bids) = false
  ∧ p_token <$> pendingRequests (run default_config alice_bids)
    = token <$> batch (run default_config alice_bids)
  ∧ ∀ b, b ∈ batch (run default_config alice_bids) →
         token b ≠ "" ∧ message b ≠ "" ∧ 0 < bid b
         ∧ ∃ z, storage (run default_config alice_bids)
                  !! balance_key (token b) = Some (JNum (Num z))
                ∧ 0 ≤ z.
Proof.
  apply (waiting_bids_are_backed default_config
           (run default_config alice_bids)).
  apply reachable_alice_bids.
Defined.

(** ** What a settlement does to balances, messages and parked
    requests *)







Lemma second_bounded l hb rest :
  sort_desc (uniqueBids l) = hb :: rest →
  (∀ b, b ∈ l → 0 < bid b) →
  0 ≤ or_zero (bid <$> head rest) ≤ bid hb.
Proof.
  intros Hs Hpos. destruct rest as [|b2 rest']; cbn.
  - assert (hb ∈ l) as Hin
      by (eapply sorted_in_batch; [exact Hs|apply list_elem_of_here]).
    specialize (Hpos hb Hin). lia.
  - assert (b2 ∈ hb :: b2 :: rest') as Hin2
      by (apply list_elem_of_further, list_elem_of_here).
    pose proof (sorted_head_dominates l hb _ b2 Hs Hin2) as Hle.
    pose proof (Hpos b2 (sorted_in_batch l hb _ b2 Hs Hin2)) as Hp2.
    destruct (Z.eqb_spec (bid b2) 0); lia.
Qed.








Lemma fold_left_sum l a :
  fold_left (λ acc b, acc + bid b) l a = a + sum_bids l.
Proof.
  revert a; induction l as [|x l IH]; intros a; cbn; [lia|].
  rewrite IH. unfold sum_bids. lia.
Qed.

Lemma sum_bids_perm l k : l ≡ₚ k → sum_bids l = sum_bids k.
Proof.
  unfold sum_bids.
  induction 1 as [|x l k _ IH|x y l|l k j _ IH1 _ IH2]; cbn; lia.
Qed.

Lemma sum_bids_cons x l : sum_bids (x :: l) = bid x + sum_bids l.
Proof. reflexivity. Qed.

Lemma sum_bids_nonneg l : (∀ x, x ∈ l → 0 < bid x) → 0 ≤ sum_bids l.
Proof.
  induction l as [|x l IH]; intros Hpos; [cbn; lia|].
  rewrite sum_bids_cons.
  assert (0 < bid x) by (apply Hpos, list_elem_of_here).
  assert (0 ≤ sum_bids l)
    by (apply IH; intros z Hz; apply Hpos, list_elem_of_further, Hz).
  lia.
Qed.

Lemma sum_bids_elem l b :
  (∀ x, x ∈ l → 0 < bid x) → b ∈ l → bid b ≤ sum_bids l.
Proof.
  induction l as [|x l IH]; intros Hpos Hin; [inversion Hin|].
  rewrite sum_bids_cons.
  assert (0 < bid x) by (apply Hpos, list_elem_of_here).
  assert (∀ z, z ∈ l → 0 < bid z) as Hpos'
    by (intros z Hz; apply Hpos, list_elem_of_further, Hz).
  pose proof (sum_bids_nonneg l Hpos').
  apply elem_of_cons in Hin as [->|Hin]; [lia|].
  specialize (IH Hpos' Hin). lia.
Qed.



(** X15. The statistics of a round of positive bids: [nBids] counts the
    distinct tokens, [sumBid] adds one bid of each, [winBid] (the second
    price) is zero exactly when there is one bidder and is at most the
    highest bid, which is at most [sumBid]. *)
Theorem round_stats_summarise_the_bidders (l : list Bid) :
  l ≠ [] → (∀ b, b ∈ l → 0 < bid b) →
  nBids (round_stats l) = size (list_to_set (token <$> l) : gset string)
  ∧ sumBid (round_stats l) = sum_bids (uniqueBids l)
  ∧ (winBid (round_stats l) = 0 ↔ nBids (round_stats l) = 1%nat)
  ∧ ∀ w, w ∈ l → (∀ b, b ∈ l → bid b ≤ bid w) →
         0 ≤ winBid (round_stats l) ≤ bid w
         ∧ bid w ≤ sumBid (round_stats l).
Proof.
  intros Hne Hpos.
  destruct (sorted_cons_of_nonempty l Hne) as (hb & rest & Hs).
  pose proof (second_bounded l hb rest Hs Hpos) as Hsec.
  assert (sumBid (round_stats l) = sum_bids (uniqueBids l)) as Hsum.
  { unfold round_stats. cbn [sumBid]. rewrite fold_left_sum.
    rewrite (sum_bids_perm _ _ (sort_desc_perm (uniqueBids l))). lia. }
  assert (hb ∈ l) as Hin
    by (eapply sorted_in_batch; [exact Hs|apply list_elem_of_here]).
  unfold round_stats in *. cbn [nBids sumBid winBid] in *. rewrite Hs in *.
  cbn [tail] in *.
  split; [apply uniqueBids_length|]. split; [exact Hsum|]. split.
  - rewrite <- sorted_length, Hs. destruct rest as [|b2 rest']; cbn.
    + split; reflexivity.
    + assert (b2 ∈ l) as Hb2.
      { eapply sorted_in_batch; [exact Hs|].
        apply list_elem_of_further, list_elem_of_here. }
      specialize (Hpos b2 Hb2).
      destruct (Z.eqb_spec (bid b2) 0); split; intros; lia.
  - intros w Hw Hmax. split; [specialize (Hmax hb Hin); lia|].
    destruct (uniqueBids_dominates l w Hw) as (u & Hu & _ & Hle).
    rewrite Hsum.
    assert (bid u ≤ sum_bids (uniqueBids l)).
    { apply sum_bids_elem; [|exact Hu].
      intros x Hx. apply Hpos, uniqueBids_elem, Hx. }
    lia.
Qed.

Lemma round_stats_summarise_the_bidders_witness :
  nBids (round_stats [bid_a1; bid_a2])
  = size (list_to_set (token <$> [bid_a1; bid_a2]) : gset string)
  ∧ sumBid (round_stats [bid_a1; bid_a2])
    = sum_bids (uniqueBids [bid_a1; bid_a2])
  ∧ (winBid (round_stats [bid_a1; bid_a2]) = 0
     ↔ nBids (round_stats [bid_a1; bid_a2]) = 1%nat)
  ∧ ∀ w, w ∈ [bid_a1; bid_a2] →
         (∀ b, b ∈ [bid_a1; bid_a2] → bid b ≤ bid w) →
         0 ≤ winBid (round_stats [bid_a1; bid_a2]) ≤ bid w
         ∧ bid w ≤ sumBid (round_stats [bid_a1; bid_a2]).
Proof.
  apply (round_stats_summarise_the_bidders [bid_a1; bid_a2]).
  - discriminate.
  - intros b Hb.
    apply elem_of_cons in Hb as [->|Hb]; [cbn; lia|].
    apply elem_of_cons in Hb as [->|Hb]; [cbn; lia|]. inversion Hb.
Defined.

(** ** The stored keys, the size of the batch and the reset *)

Lemma reachable_step_transition cfg s e :
  reachable cfg no_faults s → enabled e s →
  transition cfg s e (step cfg no_faults e s).
Proof.
  intros Hr Hen. apply step_transition; [|exact Hen].
  apply (inv_processing cfg s), reachable_invariant, Hr.
Qed.

Lemma balance_key_namespaced t : namespaced (balance_key t).
Proof. left. unfold balance_key; simpl. destruct t; reflexivity. Qed.

Lemma name_key_namespaced t : namespaced (name_key t).
Proof. right; left. unfold name_key; simpl. destruct t; reflexivity. Qed.

Lemma message_key_namespaced i : namespaced (message_key i).
Proof. right; right. apply message_key_prefix. Qed.

Lemma put_many_lookup_Some entries (st : gmap string jsval) k v :
  put_many entries st !! k = Some v → k ∈ entries.*1 ∨ st !! k = Some v.
Proof.
  revert st; induction entries as [|[k0 v0] r IH]; intros st; [auto|].
  change (put_many ((k0, v0) :: r) st) with (put_many r (<[k0 := v0]> st)).
  intros H. apply IH in H as [H|H].
  - left. rewrite fmap_cons. apply list_elem_of_further, H.
  - destruct (decide (k = k0)) as [->|Hne].
    + left. rewrite fmap_cons. apply list_elem_of_here.
    + right. rewrite lookup_insert_ne in H by congruence. exact H.
Qed.

Lemma settle_keys cfg via i hb s k v :
  storage (settle cfg via i hb s) !! k = Some v →
  namespaced k ∨ storage s !! k = Some v.
Proof.
  unfold settle.
  cbn [storage reset_state resolve_all set_storage set_alarm_slot
       set_processing].
  destruct (decide (k = message_key i)) as [->|Hne];
    [intros _; left; apply message_key_namespaced|].
  rewrite lookup_insert_ne by congruence.
  intros H. apply put_many_lookup_Some in H as [H|H]; [left|right; exact H].
  rewrite balance_entries_keys in H.
  apply list_elem_of_fmap in H as (t & -> & _). apply balance_key_namespaced.
Qed.

Lemma list_keys_elem p (st : gmap string jsval) k :
  k ∈ list_keys p st ↔ String.prefix p k = true ∧ is_Some (st !! k).
Proof.
  unfold list_keys. rewrite list_elem_of_filter, list_elem_of_fmap.
  split.
  - intros (Hp & [k' v] & -> & Hin). split; [exact Hp|].
    apply elem_of_map_to_list in Hin. cbn. eauto.
  - intros (Hp & v & Hv). split; [exact Hp|].
    exists (k, v). split; [reflexivity|]. apply elem_of_map_to_list, Hv.
Qed.

Lemma delete_many_in keys (st : gmap string jsval) k :
  k ∈ keys → delete_many keys st !! k = None.
Proof.
  induction keys as [|k0 r IH]; [intros H; inversion H|].
  unfold delete_many; cbn [foldr]. fold (delete_many r st).
  intros [->|Hin]%elem_of_cons; [apply lookup_delete_eq|].
  destruct (decide (k = k0)) as [->|Hne]; [apply lookup_delete_eq|].
  rewrite lookup_delete_ne by congruence. auto.
Qed.

Lemma delete_many_notin keys (st : gmap string jsval) k :
  k ∉ keys → delete_many keys st !! k = st !! k.
Proof.
  induction keys as [|k0 r IH]; [reflexivity|].
  unfold delete_many; cbn [foldr]. fold (delete_many r st).
  rewrite not_elem_of_cons. intros [Hne Hr].
  rewrite lookup_delete_ne by congruence. auto.
Qed.

Lemma wiped_lookup s k :
  storage (wiped s) !! k = if decide (namespaced k) then None else storage s !! k.
Proof.
  unfold wiped.
  cbn [storage reset_state set_storage set_alarm_slot].
  destruct (decide (namespaced k)) as [Hn|Hn].
  - destruct (storage s !! k) as [v|] eqn:Hv.
    + apply delete_many_in. rewrite !elem_of_app, !list_keys_elem.
      rewrite Hv. unfold namespaced in Hn.
      destruct Hn as [H|[H|H]]; eauto 6.
    + destruct (delete_many _ _ !! k) as [v|] eqn:Hd; [|reflexivity].
      apply delete_many_lookup in Hd. congruence.
  - apply delete_many_notin. rewrite !elem_of_app, !list_keys_elem.
    unfold namespaced in Hn. tauto.
Qed.

Lemma fetch_delete cfg s i :
  fetch cfg no_faults (delete_request (Some ("Bearer " +:+ admin_token cfg)))
    i s
  = (wiped s, Ok (Now {| status := 200; body := BDeleted |})).
Proof.
  unfold fetch, fetch_route, delete_request.
  cbn [method pathname String.eqb Ascii.eqb Bool.eqb].
  unfold handleDelete, authorized.
  cbn [method String.eqb Ascii.eqb Bool.eqb negb authorization].
  rewrite String.eqb_refl. reflexivity.
Qed.

Lemma reachable_namespaced cfg s k v :
  reachable cfg no_faults s → storage s !! k = Some v → namespaced k.
Proof.
  intros Hr. revert k v.
  induction Hr as [|s e Hr IH Hen]; intros k v.
  - cbn. rewrite lookup_empty. discriminate.
  - pose proof (reachable_step_transition cfg s e Hr Hen) as Htr.
    revert Htr. generalize (step cfg no_faults e s). intros s' Htr.
    destruct Htr as [e|r i tok name|r i b Hb Hth|r i b hb rest Hb Hth Hs
                     |i t hb rest Ha Ht Hs|i Hb|r i Hroute].
    + apply IH.
    + unfold registered. cbn.
      destruct (decide (k = name_key tok)) as [->|Hn];
        [intros _; apply name_key_namespaced|].
      rewrite lookup_insert_ne by congruence.
      destruct (decide (k = balance_key tok)) as [->|Hb];
        [intros _; apply balance_key_namespaced|].
      rewrite lookup_insert_ne by congruence. apply IH.
    + change (storage (push_pending _ (enqueue cfg i b s)))
        with (storage (enqueue cfg i b s)).
      rewrite storage_enqueue. apply IH.
    + intros H. apply settle_keys in H as [H|H]; [exact H|].
      rewrite storage_enqueue in H. eapply IH, H.
    + intros H. apply settle_keys in H as [H|H]; [exact H|]. eapply IH, H.
    + apply IH.
    + intros H%delete_many_lookup. eapply IH, H.
Qed.

Lemma reachable_batch_bound cfg s :
  reachable cfg no_faults s →
  Z.of_nat (length (batch s)) < Z.max 1 (N cfg).
Proof.
  induction 1 as [|s e Hr IH Hen]; [cbn; lia|].
  pose proof (reachable_step_transition cfg s e Hr Hen) as Htr.
  revert Htr. generalize (step cfg no_faults e s). intros s' Htr.
  destruct Htr as [e|r i tok name|r i b Hb Hth|r i b hb rest Hb Hth Hs
                   |i t hb rest Ha Ht Hs|i Hb|r i Hroute];
    try exact IH; try (cbn; lia).
  cbn [batch push_pending]. unfold at_threshold in Hth.
  rewrite Z.geb_leb in Hth. apply Z.leb_gt in Hth. lia.
Qed.

(** X16. When no storage call throws, every key the scheduler has stored
    starts with [balance:], [name:] or [message:]. *)
Theorem storage_keys_are_namespaced cfg s k v :
  reachable cfg no_faults s → storage s !! k = Some v →
  String.prefix "balance:" k = true
  ∨ String.prefix "name:" k = true
  ∨ String.prefix "message:" k = true.
Proof. apply reachable_namespaced. Qed.

Lemma storage_keys_are_namespaced_witness :
  String.prefix "balance:" (balance_key (token_of Byte.x00)) = true
  ∨ String.prefix "name:" (balance_key (token_of Byte.x00)) = true
  ∨ String.prefix "message:" (balance_key (token_of Byte.x00)) = true.
Proof.
  apply (storage_keys_are_namespaced default_config
           (run default_config alice_bids) (balance_key (token_of Byte.x00))
           (JNum (Num 10))).
  - apply reachable_alice_bids.
  - vm_compute. reflexivity.
Defined.

(** X17. When no storage call throws, between requests the batch holds
    fewer bids than the threshold [N] (none if [N] is below 2), and as many
    requests are parked as bids wait. *)
Theorem batch_stays_below_threshold cfg s :
  reachable cfg no_faults s →
  Z.of_nat (length (batch s)) < Z.max 1 (N cfg)
  ∧ length (pendingRequests s) = length (batch s).
Proof.
  intros Hr. split; [apply reachable_batch_bound, Hr|].
  destruct (reachable_invariant cfg s Hr) as [_ HC].
  pose proof (f_equal length (inv_parked cfg s HC)) as H.
  rewrite !length_fmap in H. exact H.
Qed.

Lemma batch_stays_below_threshold_witness :
  Z.of_nat (length (batch (run default_config alice_bids)))
  < Z.max 1 (N default_config)
  ∧ length (pendingRequests (run default_config alice_bids))
    = length (batch (run default_config alice_bids)).
Proof.
  apply (batch_stays_below_threshold default_config
           (run default_config alice_bids)).
  apply reachable_alice_bids.
Defined.

(** X18. An authorised [GET /delete] removes every key of the three
    prefixes and no other key, deletes the alarm, and empties the batch and
    the parked requests without answering them. *)
Theorem reset_wipes_the_namespaces cfg s i :
  let s' := wiped s in
  fetch cfg no_faults (delete_request (Some ("Bearer " +:+ admin_token cfg)))
    i s
  = (s', Ok (Now {| status := 200; body := BDeleted |}))
  ∧ (∀ k, namespaced k → storage s' !! k = None)
  ∧ (∀ k, ¬ namespaced k → storage s' !! k = storage s !! k)
  ∧ alarm_slot s' = None
  ∧ batch s' = [] ∧ pendingRequests s' = [] ∧ processing s' = false
  ∧ resolved s' = resolved s.
Proof.
  intros s'. split; [apply fetch_delete|]. split; [|split].
  - intros k Hk. subst s'. rewrite wiped_lookup, decide_True by exact Hk.
    reflexivity.
  - intros k Hk. subst s'. rewrite wiped_lookup, decide_False by exact Hk.
    reflexivity.
  - repeat split.
Qed.

(** X19. After an authorised [GET /delete] on a state the scheduler
    itself built, the storage is empty. *)
Theorem reset_leaves_nothing_stored cfg s i :
  reachable cfg no_faults s →
  storage
    (fetch cfg no_faults
       (delete_request (Some ("Bearer " +:+ admin_token cfg))) i s).1
  = ∅.
Proof.
  intros Hr. rewrite fetch_delete. cbn [fst].
  apply map_empty. intros k. rewrite wiped_lookup.
  destruct (decide (namespaced k)) as [|Hn]; [reflexivity|].
  destruct (storage s !! k) as [v|] eqn:Hv; [|reflexivity].
  exfalso. apply Hn. eapply reachable_namespaced; eauto.
Qed.

Lemma reset_leaves_nothing_stored_witness :
  storage
    (fetch default_config no_faults
       (delete_request (Some ("Bearer " +:+ admin_token default_config)))
       (inputs_at 2 20) (run default_config alice_bids)).1
  = ∅.
Proof.
  apply (reset_leaves_nothing_stored default_config
           (run default_config alice_bids) (inputs_at 2 20)).
  apply reachable_alice_bids.
Defined.

(** X20. [GET /delete] and [GET /clients] without the exact header
    [Bearer <ADMIN_TOKEN>] are answered 401 and change nothing, whichever
    storage calls would fail. *)
Theorem admin_routes_need_the_bearer cfg fails r i s :
  method r = "GET" →
  pathname r = "/delete" ∨ pathname r = "/clients" →
  authorization r ≠ Some ("Bearer " +:+ admin_token cfg) →
  fetch cfg fails r i s = (s, Ok (text_response 401 "Unauthorized")).
Proof.
  intros Hm Hp Ha.
  assert (authorized cfg r = false) as Hauth.
  { unfold authorized. destruct (authorization r) as [a|]; [|reflexivity].
    apply String.eqb_neq. congruence. }
  unfold fetch, fetch_route. rewrite Hm.
  destruct Hp as [Hp|Hp]; rewrite Hp;
    cbn [String.eqb Ascii.eqb Bool.eqb];
    unfold handleDelete, handleListClients; rewrite Hm, Hauth; reflexivity.
Qed.

Lemma admin_routes_need_the_bearer_witness :
  fetch default_config no_faults (delete_request None) (inputs_at 2 20)
    (run default_config alice_bids)
  = (run default_config alice_bids, Ok (text_response 401 "Unauthorized")).
Proof.
  apply (admin_routes_need_the_bearer default_config no_faults
           (delete_request None) (inputs_at 2 20)
           (run default_config alice_bids)).
  - reflexivity.
  - left. reflexivity.
  - discriminate.
Defined.



(** ** The alphabet of tokens *)

Module TokenAlphabetFacts.
Import Token TokenAlphabet.

Lemma forall_byte (P : byte → bool) :
  forallb P all_bytes = true → ∀ b, P b = true.
Proof.
  intros H b.
  rewrite forallb_forall in H. apply H, list_elem_of_In.
  unfold all_bytes. apply list_elem_of_omap. exists (Byte.to_nat b).
  split; [|apply Byte.of_to_nat].
  apply elem_of_seq. pose proof (Byte.to_nat_bounded b). lia.
Qed.

Lemma sextet0_ok a : is_base64 (b64_char (sextet0 (Byte.to_N a))) = true.
Proof. revert a. apply forall_byte. vm_compute. reflexivity. Qed.

Lemma sextet3_ok a : is_base64 (b64_char (sextet3 (Byte.to_N a))) = true.
Proof. revert a. apply forall_byte. vm_compute. reflexivity. Qed.

Lemma sextet1_ok a b :
  is_base64 (b64_char (sextet1 (Byte.to_N a) (Byte.to_N b))) = true.
Proof.
  revert b. apply forall_byte. revert a.
  apply (forall_byte (λ a, forallb (λ b, is_base64 (b64_char (sextet1 (Byte.to_N a) (Byte.to_N b)))) all_bytes)).
  vm_compute. reflexivity.
Qed.

Lemma sextet2_ok a b :
  is_base64 (b64_char (sextet2 (Byte.to_N a) (Byte.to_N b))) = true.
Proof.
  revert b. apply forall_byte. revert a.
  apply (forall_byte (λ a, forallb (λ b, is_base64 (b64_char (sextet2 (Byte.to_N a) (Byte.to_N b)))) all_bytes)).
  vm_compute. reflexivity.
Qed.

Lemma btoa_triples bs :
  length bs = 12%nat → all_chars is_base64 (btoa bs) = true.
Proof.
  intros H.
  do 12 (destruct bs as [|? bs]; [discriminate H|]).
  destruct bs; [|discriminate H].
  cbn [btoa all_chars].
  rewrite !sextet0_ok, !sextet1_ok, !sextet2_ok, !sextet3_ok. reflexivity.
Qed.

Lemma strip_alnum s :
  all_chars is_base64 s = true → all_chars is_alnum (strip s) = true.
Proof.
  induction s as [|c r IH]; [reflexivity|]. cbn [all_chars strip].
  intros [Hc Hr]%andb_prop. unfold is_base64 in Hc.
  destruct (is_plus_or_slash c); [auto|].
  cbn [all_chars]. rewrite orb_false_r in Hc. rewrite Hc. cbn. auto.
Qed.

Lemma slice0_all p n s :
  all_chars p s = true → all_chars p (slice0 n s) = true.
Proof.
  revert s; induction n as [|n IH]; intros [|c r]; cbn; auto.
  intros [Hc Hr]%andb_prop. rewrite Hc. cbn. auto.
Qed.

End TokenAlphabetFacts.

(** X22. A token generated from twelve random bytes holds letters and
    digits only. *)
Theorem token_is_alphanumeric (randomBytes : list byte) :
  length randomBytes = 12%nat →
  TokenAlphabet.all_chars TokenAlphabet.is_alnum
    (Token.generateToken randomBytes) = true.
Proof.
  intros H. unfold Token.generateToken.
  apply TokenAlphabetFacts.slice0_all, TokenAlphabetFacts.strip_alnum,
    TokenAlphabetFacts.btoa_triples, H.
Qed.

Lemma token_is_alphanumeric_witness :
  TokenAlphabet.all_chars TokenAlphabet.is_alnum
    (Token.generateToken (repeat Byte.x01 12)) = true.
Proof.
  apply (token_is_alphanumeric (repeat Byte.x01 12)). reflexivity.
Defined.

(** ** The configuration *)

(** X23. The constructor never keeps a zero: [N], [TIMEOUT], [START_BAL]
    and [MAX_BAL] set to 0 fall back to 5, 5000, 10 and 100, and every
    other integer is kept, negative ones included. *)
Theorem constructor_zero_falls_back (env : Env) :
  let c := constructor_config env in
  N c ≠ 0 ∧ timeout c ≠ 0 ∧ start c ≠ 0 ∧ max_bal c ≠ 0
  ∧ (∀ z, z ≠ 0 →
          (env_N env = Some z → N c = z)
          ∧ (env_TIMEOUT env = Some z → timeout c = z)
          ∧ (env_START_BAL env = Some z → start c = z)
          ∧ (env_MAX_BAL env = Some z → max_bal c = z)
          ∧ (env_ACCUMULATE_BAL env = Some z → accumulate c = z))
  ∧ (env_N env = Some 0 → N c = 5)
  ∧ (env_TIMEOUT env = Some 0 → timeout c = 5000)
  ∧ (env_START_BAL env = Some 0 → start c = 10)
  ∧ (env_MAX_BAL env = Some 0 → max_bal c = 100).
Proof.
  assert (∀ p d, d ≠ 0 → or_default p d ≠ 0) as Hnz.
  { intros [z|] d Hd; cbn; [|exact Hd].
    destruct (Z.eqb_spec z 0); assumption. }
  assert (∀ z d, z ≠ 0 → or_default (Some z) d = z) as Hset.
  { intros z d Hz. cbn. destruct (Z.eqb_spec z 0); [contradiction|reflexivity]. }
  cbn. repeat split; try (apply Hnz; lia);
    try (intros ->; apply Hset; assumption);
    intros ->; reflexivity.
Qed.

(** ** The pages of the listings *)

Lemma js_slice_window {A} (a n : Z) (l : list A) :
  0 ≤ a → 0 ≤ n →
  js_slice a (a + n) l = take (Z.to_nat n) (drop (Z.to_nat a) l).
Proof.
  intros Ha Hn. unfold js_slice.
  destruct (Z.ltb_spec a 0) as [|_]; [lia|].
  destruct (Z.ltb_spec (a + n) 0) as [|_]; [lia|].
  destruct (Z_lt_ge_dec a (Z.of_nat (length l))) as [Hlt|Hge].
  - rewrite (Z.min_l a) by lia.
    destruct (Z_le_gt_dec (a + n) (Z.of_nat (length l))) as [Hle|Hgt].
    + rewrite Z.min_l by lia. f_equal. f_equal. lia.
    + rewrite Z.min_r by lia.
      rewrite !take_ge; [reflexivity| |]; rewrite length_drop; lia.
  - rewrite (Z.min_r a) by lia. rewrite Z.min_r by lia.
    rewrite Z.sub_diag. cbn [Z.to_nat take].
    rewrite (drop_ge l (Z.to_nat a)) by lia. destruct (Z.to_nat n); reflexivity.
Qed.

Lemma or_default_Some z d : z ≠ 0 → or_default (Some z) d = z.
Proof. intros Hz. cbn. destruct (Z.eqb_spec z 0); [contradiction|reflexivity]. Qed.

Lemma page_window page pageSize tokens :
  1 ≤ page → 0 < or_default pageSize 10 →
  pageTokens (list_clients_page (Some page) pageSize tokens)
  = take (Z.to_nat (or_default pageSize 10))
      (drop (Z.to_nat ((page - 1) * or_default pageSize 10)) tokens).
Proof.
  intros Hp Hs. unfold list_clients_page. cbn [pageTokens].
  rewrite or_default_Some by lia. apply js_slice_window; nia.
Qed.

Lemma pages_upto_take pageSize tokens n :
  0 < or_default pageSize 10 →
  pages_upto pageSize tokens n
  = take (n * Z.to_nat (or_default pageSize 10)) tokens.
Proof.
  intros Hs. unfold pages_upto. induction n as [|n IH]; [reflexivity|].
  rewrite seq_S, fmap_app, concat_app, IH. cbn [fmap list_fmap concat].
  rewrite app_nil_r, page_window by lia.
  replace (Z.to_nat ((Z.of_nat (S (0 + n)) - 1) * or_default pageSize 10))
    with (n * Z.to_nat (or_default pageSize 10))%nat by nia.
  rewrite take_take_drop. f_equal. lia.
Qed.

Lemma ceil_div_bounds a b :
  0 < b → (ceil_div a b - 1) * b < a ≤ ceil_div a b * b.
Proof.
  intros Hb. unfold ceil_div.
  pose proof (Z.div_mod (- a) b ltac:(lia)) as Hdm.
  pose proof (Z.mod_pos_bound (- a) b Hb) as Hm. nia.
Qed.

(** X24. For a page number of at least 1 and a positive page size, the
    tokens of a page of [handleListClients] are the window of [pageSize]
    tokens that follows the [page - 1] windows before it; a page past
    [totalPages] is empty. *)
Theorem client_page_is_a_window page pageSize tokens :
  1 ≤ page → 0 < or_default pageSize 10 →
  let cp := list_clients_page (Some page) pageSize tokens in
  pageTokens cp
  = take (Z.to_nat (cp_pageSize cp))
      (drop (Z.to_nat ((page - 1) * cp_pageSize cp)) tokens)
  ∧ Z.of_nat (length (pageTokens cp)) ≤ cp_pageSize cp
  ∧ (totalPages cp < page → pageTokens cp = []).
Proof.
  intros Hp Hs cp.
  assert (pageTokens cp
          = take (Z.to_nat (or_default pageSize 10))
              (drop (Z.to_nat ((page - 1) * or_default pageSize 10)) tokens))
    as Hw by (apply page_window; assumption).
  change (cp_pageSize cp) with (or_default pageSize 10).
  split; [exact Hw|]. split.
  - rewrite Hw, length_take. lia.
  - intros Htp. rewrite Hw.
    change (totalPages cp)
      with (ceil_div (Z.of_nat (length tokens)) (or_default pageSize 10))
      in Htp.
    pose proof (ceil_div_bounds (Z.of_nat (length tokens))
                  (or_default pageSize 10) Hs) as Hb.
    rewrite drop_ge; [destruct (Z.to_nat _); reflexivity|]. nia.
Qed.

Lemma client_page_is_a_window_witness :
  let cp := list_clients_page (Some 2) (Some 2) ["a"; "b"; "c"; "d"; "e"] in
  pageTokens cp
  = take (Z.to_nat (cp_pageSize cp))
      (drop (Z.to_nat ((2 - 1) * cp_pageSize cp)) ["a"; "b"; "c"; "d"; "e"])
  ∧ Z.of_nat (length (pageTokens cp)) ≤ cp_pageSize cp
  ∧ (totalPages cp < 2 → pageTokens cp = []).
Proof.
  apply (client_page_is_a_window 2 (Some 2) ["a"; "b"; "c"; "d"; "e"]).
  - lia.
  - cbn. lia.
Defined.

(** X25. For a positive page size, [totalPages] is the least number of
    pages that hold the listing, and the pages 1 to [totalPages], one after
    the other, are the listing. *)
Theorem client_pages_cover_the_listing pageSize tokens :
  0 < or_default pageSize 10 →
  let tp := totalPages (list_clients_page None pageSize tokens) in
  (tp - 1) * or_default pageSize 10 < Z.of_nat (length tokens)
  ∧ Z.of_nat (length tokens) ≤ tp * or_default pageSize 10
  ∧ pages_upto pageSize tokens (Z.to_nat tp) = tokens.
Proof.
  intros Hs tp.
  pose proof (ceil_div_bounds (Z.of_nat (length tokens))
                (or_default pageSize 10) Hs) as Hb.
  change tp
    with (ceil_div (Z.of_nat (length tokens)) (or_default pageSize 10)) in *.
  split; [lia|]. split; [lia|].
  rewrite pages_upto_take by exact Hs. apply take_ge. nia.
Qed.

Lemma client_pages_cover_the_listing_witness :
  let tp := totalPages
              (list_clients_page None (Some 2) ["a"; "b"; "c"; "d"; "e"]) in
  (tp - 1) * or_default (Some 2) 10 < Z.of_nat (length ["a"; "b"; "c"; "d"; "e"])
  ∧ Z.of_nat (length ["a"; "b"; "c"; "d"; "e"]) ≤ tp * or_default (Some 2) 10
  ∧ pages_upto (Some 2) ["a"; "b"; "c"; "d"; "e"] (Z.to_nat tp)
    = ["a"; "b"; "c"; "d"; "e"].
Proof.
  apply (client_pages_cover_the_listing (Some 2) ["a"; "b"; "c"; "d"; "e"]).
  cbn. lia.
Defined.

Lemma or_default_nonzero p d : d ≠ 0 → or_default p d ≠ 0.
Proof.
  intros Hd. destruct p as [z|]; cbn; [|exact Hd].
  destruct (Z.eqb_spec z 0); assumption.
Qed.

(** X26. [handleReplayMessages] returns the values of the listing in its
    order; it gives a [next] cursor exactly when the listing holds [limit]
    entries (10 when [limit] is 0 or not a number), and the cursor is then
    the key of the last entry. *)
Theorem replay_cursor page_limit entries :
  let out := replay_page page_limit entries in
  out.1 = entries.*2
  ∧ (is_Some out.2 ↔ Z.of_nat (length entries) = or_default page_limit 10)
  ∧ ∀ k, out.2 = Some k → ∃ v front, entries = front ++ [(k, v)].
Proof.
  intros out. subst out. unfold replay_page. cbn [fst snd].
  rewrite length_fmap.
  pose proof (or_default_nonzero page_limit 10 ltac:(lia)) as Hnz.
  split; [reflexivity|].
  destruct (Z.eqb_spec (Z.of_nat (length entries)) (or_default page_limit 10))
    as [Heq|Hne].
  - destruct entries as [|e es _] using rev_ind; [cbn in Heq; lia|].
    destruct e as [k' v]. rewrite fmap_app.
    change (fst <$> [(k', v)]) with [k']. rewrite last_snoc.
    split; [split; eauto|]. intros k [= <-]. eauto.
  - split; [|discriminate]. split; [intros [x Hx]; discriminate|contradiction].
Qed.
